(** * A3C training core and evaluation entry point

    A shallow embedding of [rl/algorithms.py] ([BaseA3CAlgorithm]) and of
    [perform.py] ([main]), followed by the properties of the specification
    that are settled against it.

    Conventions of the embedding.
    - TensorFlow variables are named cells of a store ([gmap string tensor]).
    - Floating-point tensors are read over the exact rationals [Qc]; rounding
      is not part of the model.  Rank-1 tensors are lists.
    - The global step is an [int64]: arithmetic on it wraps ([wrap64]).
    - Code of collaborators that is not part of the two files (policies, the
      advantage estimator, the optimizer, session hooks, the environment) is
      taken through the interface classes [Collab] and [Rollout].
    - Stateful code threads a world through a small error monad. *)

From Stdlib Require Import ZArith QArith Qcanon Lia List.
From stdpp Require Import base option list gmap strings numbers.

Set Default Proof Using "Type".

(* ===================================================================== *)
(** * Part I: the embedding                                               *)
(* ===================================================================== *)

(** ** Numbers *)

Module Num.

(** A signed 64-bit integer kept as a [Z]; [wrap64] is the two's-complement
    reduction every [int64] operation ends with. *)
Definition int64_min : Z := - 2 ^ 63.
Definition int64_max : Z := 2 ^ 63 - 1.

Definition wrap64 (z : Z) : Z := (z + 2 ^ 63) mod 2 ^ 64 - 2 ^ 63.

Definition in_int64 (z : Z) : Prop := (int64_min <= z <= int64_max)%Z.

Definition add64 (a b : Z) : Z := wrap64 (a + b).
Definition sub64 (a b : Z) : Z := wrap64 (a - b).

(** Injection of a natural number into the rationals, for [1 / (i + 1)]. *)
Definition Qc_of_nat (n : nat) : Qc := Qc_of_Z (Z.of_nat n).

End Num.

(** ** Rank-1 tensors *)

Module Tensor.

Local Open Scope Qc_scope.

Abbreviation tensor := (list Qc).

(** [tf.reduce_sum] over all entries. *)
Definition reduce_sum (xs : tensor) : Qc := foldr Qcplus 0 xs.

(** An elementwise binary operation on two rank-1 tensors.  Shapes [n] and
    [m] are compatible when they are equal or one of them is [1] (which is
    then broadcast); any other pair is rejected by the runtime. *)
Definition broadcast2 (f : Qc → Qc → Qc) (xs ys : tensor) : option tensor :=
  if decide (length xs = length ys) then Some (zip_with f xs ys)
  else match xs, ys with
       | [x], _ => Some (map (f x) ys)
       | _, [y] => Some (map (λ x, f x y) xs)
       | _, _ => None
       end.

Definition mul : tensor → tensor → option tensor := broadcast2 Qcmult.
Definition sub : tensor → tensor → option tensor := broadcast2 Qcminus.

(** [tf.square]. *)
Definition square (xs : tensor) : tensor := map (λ x, x * x) xs.

End Tensor.

(** ** Data of the algorithm *)

Module A3C.

Import Num Tensor.
Local Open Scope Qc_scope.

(** Observations are numeric arrays, actions are indices, a recurrent state
    is a numeric array. *)
Abbreviation Obs := (list Qc).
Abbreviation Action := Z.
Abbreviation PolicyState := (list Qc).

(** The variable store of a session. *)
Abbreviation store := (gmap string tensor).

(** What the algorithm uses of a policy object: its name, the names of its
    trainable variables in [var_list()] order, and whether [get_state()]
    is not [None]. *)
Record Policy := {
  policy_name : string;
  var_list : list string;
  recurrent : bool
}.

(** What [_get_feed_dict] reads of a trajectory. *)
Record Trajectory := {
  observations : list Obs;
  actions : list Action;
  policy_states : list PolicyState;
  num_timesteps : nat
}.

(** The feed dictionary: the four placeholders that are always fed and
    [state_in], which is present only for a recurrent policy. *)
Record FeedDict := {
  fd_inputs : list Obs;
  fd_actions : list Action;
  fd_advantages : tensor;
  fd_value_targets : tensor;
  fd_state_in : option PolicyState
}.

(** Session hooks: the checkpoint saver the code installs and looks for,
    and any other hook a caller passes. *)
Inductive Hook :=
| CheckpointSaverHook (checkpoint_dir : string) (save_steps : Z)
| OtherHook (name : string).

Definition is_checkpoint_saver (h : Hook) : bool :=
  match h with CheckpointSaverHook _ _ => true | OtherHook _ => false end.

(** The collaborators of the algorithm. *)
Class Collab := {
  Dist : Type;
  Summary : Type;
  (** [pd.neglogp] and [pd.entropy] of one sample of the batch. *)
  neglogp : Dist → Action → Qc;
  entropy : Dist → Qc;
  (** The forward pass of a policy on fed inputs: the batch of action
      distributions and the column of value predictions. *)
  distribution : Policy → store → list Obs → option PolicyState → list Dist;
  value_preds : Policy → store → list Obs → option PolicyState → tensor;
  (** [rl.trajectory.gae]: advantages and value targets. *)
  gae : Policy → store → Trajectory → Qc → Qc → tensor * tensor;
  (** [optimizer.apply_gradients] on the preprocessed gradients of the loss
      with respect to the local variables, applied to the global ones. *)
  apply_gradients : Policy → Policy → store → FeedDict → store;
  (** The merged summary protocol buffer. *)
  merged_summaries : Policy → store → FeedDict → Summary;
  (** Whether some hook requests a stop after a [run] call that left the
      global step at the given value. *)
  request_stop : list Hook → Z → bool;
  (** [saver.restore]: the variables and global step of a checkpoint, when
      it can be read. *)
  restore : string → option (store * Z)
}.

(** *** Synchronisation ops *)

(** [v1.assign(v2)]: the op that writes the current value of [v2] to [v1]. *)
Inductive Op := Assign (v1 v2 : string).

Definition op_target (o : Op) : string := match o with Assign v1 _ => v1 end.
Definition op_source (o : Op) : string := match o with Assign _ v2 => v2 end.

(** Running one assign op; reading an uninitialised variable fails. *)
Definition run_op (o : Op) (σ : store) : option store :=
  match o with
  | Assign v1 v2 => x ← σ !! v2; Some (<[v1 := x]> σ)
  end.

(** Running a list of ops in the given order. *)
Fixpoint run_ops (ops : list Op) (σ : store) : option store :=
  match ops with
  | [] => Some σ
  | o :: ops => σ' ← run_op o σ; run_ops ops σ'
  end.

(** [tf.group] fixes no order among its ops: a run of the group is a run of
    its ops in some order. *)
Definition run_group (ops : list Op) (σ σ' : store) : Prop :=
  ∃ order, order ≡ₚ ops ∧ run_ops order σ = Some σ'.

(** The [sync_ops] attribute set by [__init__]. *)
Definition build_sync_ops (local_policy : option Policy) (global_policy : Policy)
  : option (list Op) :=
  match local_policy with
  | Some lp => Some (zip_with Assign (var_list lp) (var_list global_policy))
  | None => None
  end.

(** *** The loss *)

Record Losses := {
  policy_loss : Qc;
  v_loss : Qc;
  loss : Qc
}.

(** [pd.neglogp(self.actions)]: one value per sample; the batch of actions
    has to match the batch of distributions. *)
Definition pd_neglogp `{Collab} (pd : list Dist) (acts : list Action) : option tensor :=
  if decide (length pd = length acts) then Some (zip_with neglogp pd acts) else None.

Definition pd_entropy `{Collab} (pd : list Dist) : tensor := map entropy pd.

(** The loss graph of [__init__], evaluated on the tensors it is built from.
    [preds] is [tf.squeeze(self.local_policy.value_preds)]: the column of
    predictions with its unit dimension dropped. *)
Definition build_loss `{Collab} (entropy_coef value_loss_coef : Qc)
    (pd : list Dist) (preds : tensor)
    (acts : list Action) (advantages value_targets : tensor) : option Losses :=
  nl ← pd_neglogp pd acts;
  weighted ← mul nl advantages;
  let policy_loss := reduce_sum weighted in
  let policy_loss := policy_loss - entropy_coef * reduce_sum (pd_entropy pd) in
  err ← sub preds value_targets;
  let v_loss := reduce_sum (square err) in
  Some {| policy_loss := policy_loss;
          v_loss := v_loss;
          loss := policy_loss + value_loss_coef * v_loss |}.

(** *** Reference notions for the loss *)

(** The sum of [f t] over the batch positions [t = 0 .. n-1]. *)
Definition sum_over (n : nat) (f : nat → Qc) : Qc :=
  foldr (λ t acc, f t + acc) 0 (seq 0 n).

(** [-log π(a_t|s_t) · A_t] at position [t]. *)
Definition policy_term `{Collab} (pd : list Dist) (acts : list Action)
    (advantages : tensor) (t : nat) : Qc :=
  match pd !! t, acts !! t, advantages !! t with
  | Some d, Some a, Some adv => neglogp d a * adv
  | _, _, _ => 0
  end.

(** The entropy of [π(·|s_t)]. *)
Definition entropy_term `{Collab} (pd : list Dist) (t : nat) : Qc :=
  match pd !! t with Some d => entropy d | None => 0 end.

(** The squared error between prediction and target at position [t]. *)
Definition squared_error (preds value_targets : tensor) (t : nat) : Qc :=
  match preds !! t, value_targets !! t with
  | Some v, Some target => (v - target) * (v - target)
  | _, _ => 0
  end.

(** *** Objects created by the class statement and by [__init__] *)

(** A [queue.Queue]: [maxsize <= 0] means unbounded. *)
Record Queue := {
  maxsize : Z;
  items : list Trajectory
}.

(** Queue objects live in a heap and are passed around by address. *)
Abbreviation heap := (gmap nat Queue).

Definition new_queue (maxsize : Z) (h : heap) : nat * heap :=
  let l := fresh (dom h) in
  (l, <[l := {| maxsize := maxsize; items := [] |}]> h).

Definition queue_full (q : Queue) : bool :=
  (0 <? maxsize q)%Z && (maxsize q <=? Z.of_nat (length (items q)))%Z.

(** [put] without blocking: [None] when the queue is full (the caller
    would block) or the address is dangling. *)
Definition queue_put (l : nat) (t : Trajectory) (h : heap) : option heap :=
  q ← h !! l;
  if queue_full q then None
  else Some (<[l := {| maxsize := maxsize q; items := items q ++ [t] |}]> h).

(** [get] without blocking: [None] when the queue is empty. *)
Definition queue_get (l : nat) (h : heap) : option (Trajectory * heap) :=
  q ← h !! l;
  match items q with
  | [] => None
  | t :: rest => Some (t, <[l := {| maxsize := maxsize q; items := rest |}]> h)
  end.

(** The default values of the keyword parameters of [__init__].  They are
    evaluated once, when the [def] statement in the class body runs; the
    default [queue] is therefore one object, allocated then. *)
Record InitDefaults := {
  default_queue : nat;
  default_entropy_coef : Qc;
  default_value_loss_coef : Qc
}.

Definition class_BaseA3CAlgorithm (h : heap) : InitDefaults * heap :=
  let '(q, h) := new_queue 5 h in
  ({| default_queue := q;
      default_entropy_coef := Q2Qc 0.01;
      default_value_loss_coef := Q2Qc 0.25 |}, h).

(** Modelled from the spec: [rl.trajectory.TrajectoryProducer] is not part
    of the two files.  The object keeps the policy it acts with, the
    trajectory length and the queue it publishes to. *)
Record TrajectoryProducer := {
  tp_policy : Policy;
  tp_trajectory_length : nat;
  tp_queue : nat
}.

(** The keyword arguments of a call of [__init__]; [None] stands for an
    argument that is left out (or, for [local_policy] and [name], passed as
    [None]). *)
Record InitArgs := {
  arg_trajectory_length : nat;
  arg_global_policy : Policy;
  arg_local_policy : option Policy;
  arg_queue : option nat;
  arg_entropy_coef : option Qc;
  arg_value_loss_coef : option Qc;
  arg_name : option string
}.

(** The attributes of an instance the rest of the class reads.  The loss
    graph is kept as the two coefficients it closes over. *)
Record Algorithm := {
  sync_ops : option (list Op);
  global_policy : Policy;
  local_policy : Policy;
  trajectory_producer : TrajectoryProducer;
  scope : string;
  entropy_coef : Qc;
  value_loss_coef : Qc
}.

Definition __init__ (defaults : InitDefaults) (args : InitArgs) : Algorithm :=
  let queue := default (default_queue defaults) (arg_queue args) in
  let entropy_coef := default (default_entropy_coef defaults) (arg_entropy_coef args) in
  let value_loss_coef :=
    default (default_value_loss_coef defaults) (arg_value_loss_coef args) in
  let sync_ops := build_sync_ops (arg_local_policy args) (arg_global_policy args) in
  let global_policy := arg_global_policy args in
  let local_policy := default global_policy (arg_local_policy args) in
  let trajectory_producer :=
    {| tp_policy := local_policy;
       tp_trajectory_length := arg_trajectory_length args;
       tp_queue := queue |} in
  let name := default "BaseA3CAlgorithm"%string (arg_name args) in
  {| sync_ops := sync_ops;
     global_policy := global_policy;
     local_policy := local_policy;
     trajectory_producer := trajectory_producer;
     scope := name;
     entropy_coef := entropy_coef;
     value_loss_coef := value_loss_coef |}.

(** *** Sessions *)

Record ConfigProto := {
  intra_op_parallelism_threads : Z;
  inter_op_parallelism_threads : Z
}.

(** The [config] argument: the [USE_DEFAULT] sentinel or a caller's value. *)
Inductive ConfigArg := USE_DEFAULT | Config (c : option ConfigProto).

Definition _get_default_config : ConfigProto :=
  {| intra_op_parallelism_threads := 1; inter_op_parallelism_threads := 2 |}.

(** What can be passed to [sess.run] by this class. *)
Inductive Fetch :=
| FSyncOps | FGlobalStep | FPolicyLoss | FVLoss | FSummaries | FTrainOp.

Section WithCollab.
Context `{C : Collab}.

(** What [sess.run] returns for a fetch. *)
Inductive Fetched :=
| VNone
| VStep (step : Z)
| VScalar (x : Qc)
| VSummary (s : Summary).

(** Observable actions, in the order they happen. *)
Inductive Event :=
| EvWarning (msg : string)
| EvInfoBeginning (step : Z)
| EvInfoLosses (step : Z) (policy_loss v_loss : Qc)
| EvSessionCreated (hooks : list Hook) (config : option ConfigProto)
| EvRestore (checkpoint : string)
| EvAddGraph
| EvProducerStart (summary_period : Z)
| EvShouldStop (answer : bool)
| EvNext (t : Trajectory)
| EvGae (t : Trajectory)
| EvRun (fetches : list Fetch)
| EvAddSummary (s : Summary) (step : Z).

(** The state the training code runs against. *)
Record World := {
  vars : store;
  global_step : Z;
  stop_requested : bool;
  hooks : list Hook;
  queues : heap;
  (** the trajectories the background producer has still to collect *)
  upcoming : list Trajectory;
  trace : list Event
}.

Definition set_vars (σ : store) (w : World) : World :=
  {| vars := σ; global_step := global_step w; stop_requested := stop_requested w;
     hooks := hooks w; queues := queues w; upcoming := upcoming w;
     trace := trace w |}.

Definition set_global_step (n : Z) (w : World) : World :=
  {| vars := vars w; global_step := n; stop_requested := stop_requested w;
     hooks := hooks w; queues := queues w; upcoming := upcoming w;
     trace := trace w |}.

Definition set_stop_requested (b : bool) (w : World) : World :=
  {| vars := vars w; global_step := global_step w; stop_requested := b;
     hooks := hooks w; queues := queues w; upcoming := upcoming w;
     trace := trace w |}.

Definition set_hooks (hs : list Hook) (w : World) : World :=
  {| vars := vars w; global_step := global_step w; stop_requested := stop_requested w;
     hooks := hs; queues := queues w; upcoming := upcoming w;
     trace := trace w |}.

Definition set_queues (h : heap) (up : list Trajectory) (w : World) : World :=
  {| vars := vars w; global_step := global_step w; stop_requested := stop_requested w;
     hooks := hooks w; queues := h; upcoming := up;
     trace := trace w |}.

Definition add_event (e : Event) (w : World) : World :=
  {| vars := vars w; global_step := global_step w; stop_requested := stop_requested w;
     hooks := hooks w; queues := queues w; upcoming := upcoming w;
     trace := trace w ++ [e] |}.

(** How a computation ends: with a value, blocked for ever on an empty
    queue, with an exception, or still running when the fuel of the model
    is used up.  Each case keeps the world that has been reached. *)
Inductive Result (A : Type) :=
| Ok (a : A) (w : World)
| Blocks (w : World)
| Raises (w : World)
| Diverges (w : World).
Global Arguments Ok {A} a w.
Global Arguments Blocks {A} w.
Global Arguments Raises {A} w.
Global Arguments Diverges {A} w.

Definition final {A} (r : Result A) : World :=
  match r with
  | Ok _ w | Blocks w | Raises w | Diverges w => w
  end.

Definition is_Ok {A} (r : Result A) : bool :=
  match r with Ok _ _ => true | _ => false end.

Definition M (A : Type) : Type := World → Result A.

Definition ret {A} (a : A) : M A := λ w, Ok a w.

Definition bind {A B} (m : M A) (k : A → M B) : M B :=
  λ w, match m w with
       | Ok a w' => k a w'
       | Blocks w' => Blocks w'
       | Raises w' => Raises w'
       | Diverges w' => Diverges w'
       end.

(** The notations [x ← m; k] and [m;; k] are those of the monad classes. *)
#[global] Instance M_ret : MRet M := @ret.
#[global] Instance M_bind : MBind M := λ A B k m, bind m k.

Definition raise {A} : M A := λ w, Raises w.
Definition emit (e : Event) : M unit := λ w, Ok tt (add_event e w).

(** *** The trajectory producer *)

(** Modelled from the spec: the producer thread publishes what it collects
    to its bounded queue and blocks when the queue is full.  [producer_fill]
    lets it run as far as the queue allows. *)
Fixpoint producer_fill (l : nat) (up : list Trajectory) (h : heap)
  : list Trajectory * heap :=
  match up with
  | [] => ([], h)
  | t :: up' =>
      match queue_put l t h with
      | Some h' => producer_fill l up' h'
      | None => (up, h)
      end
  end.

(** Modelled from the spec: [next()] hands over the oldest trajectory of the
    queue and blocks while there is none. *)
Definition producer_next (tp : TrajectoryProducer) : M Trajectory := λ w,
  let '(up, h) := producer_fill (tp_queue tp) (upcoming w) (queues w) in
  match queue_get (tp_queue tp) h with
  | Some (t, h') => Ok t (add_event (EvNext t) (set_queues h' up w))
  | None => Blocks (set_queues h up w)
  end.

Definition producer_start (summary_period : Z) : M unit :=
  emit (EvProducerStart summary_period).

(** *** Running the graph *)

(** The loss tensors of an instance on a feed. *)
Definition losses (alg : Algorithm) (σ : store) (fd : FeedDict) : option Losses :=
  let lp := local_policy alg in
  build_loss (entropy_coef alg) (value_loss_coef alg)
    (distribution lp σ (fd_inputs fd) (fd_state_in fd))
    (value_preds lp σ (fd_inputs fd) (fd_state_in fd))
    (fd_actions fd) (fd_advantages fd) (fd_value_targets fd).

(** [_get_train_op]: the group of [optimizer.apply_gradients] and of
    [global_step.assign_add(batch_size)], where [batch_size] is the leading
    dimension of the fed inputs. *)
Definition _get_train_op (alg : Algorithm) (fd : FeedDict) (w : World) : World :=
  let batch_size := Z.of_nat (length (fd_inputs fd)) in
  let σ := apply_gradients (local_policy alg) (global_policy alg) (vars w) fd in
  set_global_step (add64 (global_step w) batch_size) (set_vars σ w).

(** The value a fetch evaluates to; tensors that depend on placeholders
    need the feed, and the loss has to be well shaped. *)
Definition fetch_value (alg : Algorithm) (w : World) (feed_dict : option FeedDict)
    (f : Fetch) : option Fetched :=
  match f with
  | FSyncOps => _ ← sync_ops alg; Some VNone
  | FGlobalStep => Some (VStep (global_step w))
  | FPolicyLoss =>
      fd ← feed_dict; l ← losses alg (vars w) fd; Some (VScalar (policy_loss l))
  | FVLoss =>
      fd ← feed_dict; l ← losses alg (vars w) fd; Some (VScalar (v_loss l))
  | FSummaries =>
      fd ← feed_dict; _ ← losses alg (vars w) fd;
      Some (VSummary (merged_summaries (local_policy alg) (vars w) fd))
  | FTrainOp =>
      fd ← feed_dict; _ ← losses alg (vars w) fd; Some VNone
  end.

(** The state change a fetch causes. *)
Definition fetch_effect (alg : Algorithm) (feed_dict : option FeedDict)
    (f : Fetch) (w : World) : option World :=
  match f with
  | FSyncOps => ops ← sync_ops alg; σ ← run_ops ops (vars w); Some (set_vars σ w)
  | FTrainOp => fd ← feed_dict; Some (_get_train_op alg fd w)
  | _ => Some w
  end.

Fixpoint run_effects (alg : Algorithm) (feed_dict : option FeedDict)
    (fetches : list Fetch) (w : World) : option World :=
  match fetches with
  | [] => Some w
  | f :: fetches =>
      w' ← fetch_effect alg feed_dict f w; run_effects alg feed_dict fetches w'
  end.

(** [sess.run(fetches, feed_dict)] of the monitored session: the values
    are those of the forward pass, then the updates happen, then the hooks
    see the run and may request a stop. *)
Definition sess_run (alg : Algorithm) (fetches : list Fetch)
    (feed_dict : option FeedDict) : M (list Fetched) := λ w,
  match mapM (fetch_value alg w feed_dict) fetches with
  | None => Raises w
  | Some values =>
      match run_effects alg feed_dict fetches w with
      | None => Raises w
      | Some w' =>
          let stop := stop_requested w' || request_stop (hooks w') (global_step w') in
          Ok values (add_event (EvRun fetches) (set_stop_requested stop w'))
      end
  end.

(** [sess.run(self.global_step)]. *)
Definition read_global_step (alg : Algorithm) : M Z :=
  values ← sess_run alg [FGlobalStep] None;
  match values with
  | [VStep step] => mret step
  | _ => raise
  end.

(** [sess.should_stop()]. *)
Definition should_stop : M bool := λ w,
  Ok (stop_requested w) (add_event (EvShouldStop (stop_requested w)) w).

(** *** [_get_feed_dict] *)

Definition call_gae (alg : Algorithm) (trajectory : Trajectory) (gamma lambda_ : Qc)
  : M (tensor * tensor) := λ w,
  Ok (gae (local_policy alg) (vars w) trajectory gamma lambda_)
     (add_event (EvGae trajectory) w).

Definition _get_feed_dict (alg : Algorithm) (gamma lambda_ : Qc) : M FeedDict :=
  trajectory ← producer_next (trajectory_producer alg);
  '(advantages, value_targets) ← call_gae alg trajectory gamma lambda_;
  let feed_dict :=
    {| fd_inputs := take (num_timesteps trajectory) (observations trajectory);
       fd_actions := take (num_timesteps trajectory) (actions trajectory);
       fd_advantages := advantages;
       fd_value_targets := value_targets;
       fd_state_in := None |} in
  if recurrent (local_policy alg) then
    match policy_states trajectory with
    | state :: _ =>
        mret {| fd_inputs := fd_inputs feed_dict;
                fd_actions := fd_actions feed_dict;
                fd_advantages := fd_advantages feed_dict;
                fd_value_targets := fd_value_targets feed_dict;
                fd_state_in := Some state |}
    | [] => raise
    end
  else mret feed_dict.

(** *** [_managed_session] *)

Definition no_saver_warning : string :=
  "Starting training without checkpoint saver hook. No checkpoint period provided and no explicit saver hook specified.".

(** [tf.train.SingularMonitoredSession(hooks, config=config)]. *)
Definition create_session (hs : list Hook) (config : option ConfigProto) : M unit :=
  λ w, Ok tt (add_event (EvSessionCreated hs config) (set_hooks hs w)).

(** [saver.restore(sess, checkpoint)]: an unreadable checkpoint raises. *)
Definition saver_restore (checkpoint : string) : M unit := λ w,
  match restore checkpoint with
  | Some (σ, step) =>
      Ok tt (add_event (EvRestore checkpoint) (set_global_step step (set_vars σ w)))
  | None => Raises w
  end.

(** The part of the context manager that runs before the body of the
    [with] statement. *)
Definition _managed_session (checkpoint_dir : string) (checkpoint : option string)
    (checkpoint_period : option Z) (hooks : option (list Hook))
    (config : ConfigArg) : M unit :=
  let config :=
    match config with
    | USE_DEFAULT => Some _get_default_config
    | Config c => c
    end in
  let hooks := default [] hooks in
  hooks ← match checkpoint_period with
          | Some period =>
              mret (hooks ++ [CheckpointSaverHook checkpoint_dir period])
          | None =>
              if negb (existsb is_checkpoint_saver hooks)
              then emit (EvWarning no_saver_warning);; mret hooks
              else mret hooks
          end;
  create_session hooks config;;
  match checkpoint with
  | Some c => saver_restore c
  | None => mret tt
  end.

(** *** [train] *)

(** The test that selects the summary branch. *)
Definition summary_due (step last_summary_step summary_period : Z) : bool :=
  (summary_period <=? sub64 step last_summary_step)%Z.

(** The body of the [while] loop; it returns the new values of [step] and
    [last_summary_step]. *)
Definition train_body (alg : Algorithm) (summary_period : Z) (gamma lambda_ : Qc)
    (step last_summary_step : Z) : M (Z * Z) :=
  match sync_ops alg with
  | Some _ => _ ← sess_run alg [FSyncOps] None; mret tt
  | None => mret tt
  end;;
  feed_dict ← _get_feed_dict alg gamma lambda_;
  last_summary_step ←
    (if summary_due step last_summary_step summary_period then
       results ← sess_run alg [FPolicyLoss; FVLoss; FSummaries; FTrainOp]
                   (Some feed_dict);
       match removelast results with
       | [VScalar policy_loss; VScalar v_loss; VSummary summary] =>
           emit (EvInfoLosses step policy_loss v_loss);;
           emit (EvAddSummary summary step);;
           mret step
       | _ => raise
       end
     else
       _ ← sess_run alg [FTrainOp] (Some feed_dict);
       mret last_summary_step);
  step ← read_global_step alg;
  mret (step, last_summary_step).

(** The [while] loop, with fuel for the iterations. *)
Fixpoint train_loop (fuel : nat) (alg : Algorithm) (num_steps summary_period : Z)
    (gamma lambda_ : Qc) (step last_summary_step : Z) : M unit :=
  match fuel with
  | O => λ w, Diverges w
  | S fuel =>
      stop ← should_stop;
      if negb stop && (step <? num_steps)%Z then
        '(step, last_summary_step) ←
          train_body alg summary_period gamma lambda_ step last_summary_step;
        train_loop fuel alg num_steps summary_period gamma lambda_
          step last_summary_step
      else mret tt
  end.

Definition train (fuel : nat) (alg : Algorithm) (num_steps : Z) (logdir : string)
    (summary_period : Z) (checkpoint_period : option Z)
    (hooks : option (list Hook)) (gamma lambda_ : option Qc)
    (checkpoint : option string) (config : ConfigArg) : M unit :=
  let gamma := default (Q2Qc 0.99) gamma in
  let lambda_ := default (Q2Qc 0.95) lambda_ in
  _managed_session logdir checkpoint checkpoint_period hooks config;;
  emit EvAddGraph;;
  step ← read_global_step alg;
  let last_summary_step := sub64 step summary_period in
  emit (EvInfoBeginning step);;
  producer_start summary_period;;
  train_loop fuel alg num_steps summary_period gamma lambda_ step last_summary_step.

(** *** Reference notions for the training loop *)

(** The trajectories pulled from the producer, as a trace records them. *)
Definition pulled (events : list Event) : list Trajectory :=
  omap (λ e, match e with EvNext t => Some t | _ => None end) events.

(** Whether an event is a run that applies the train op, and how many
    such runs a trace holds. *)
Definition is_train_op (f : Fetch) : bool :=
  match f with FTrainOp => true | _ => false end.

Definition applies_update (e : Event) : bool :=
  match e with
  | EvRun fetches => existsb is_train_op fetches
  | _ => false
  end.

Definition count_updates (events : list Event) : nat :=
  length (filter (λ e, applies_update e = true) events).


(** The sum of the true lengths of a list of trajectories. *)
Definition total_timesteps (ts : list Trajectory) : Z :=
  foldr (λ t acc, Z.of_nat (num_timesteps t) + acc)%Z 0%Z ts.

(** A trajectory records a consumed length that its arrays cover. *)
Definition well_formed (t : Trajectory) : Prop :=
  (num_timesteps t ≤ length (observations t))%nat.

(** One pass through the body of the loop, as seen from outside: the values
    of [step] and [last_summary_step] it starts with, the trajectory it
    pulls, and the losses and summary it would report. *)
Record Iteration := {
  it_step : Z;
  it_last_summary_step : Z;
  it_trajectory : Trajectory;
  it_policy_loss : Qc;
  it_v_loss : Qc;
  it_summary : Summary
}.

(** What the update step of an iteration shows: in the summary branch one
    run that fetches both losses, the summaries and the train op, the log
    line and the summary record; otherwise the run of the train op alone. *)
Definition update_events (summary_period : Z) (it : Iteration) : list Event :=
  if summary_due (it_step it) (it_last_summary_step it) summary_period then
    [EvRun [FPolicyLoss; FVLoss; FSummaries; FTrainOp];
     EvInfoLosses (it_step it) (it_policy_loss it) (it_v_loss it);
     EvAddSummary (it_summary it) (it_step it)]
  else [EvRun [FTrainOp]].

(** What the body of the loop shows, in order: synchronisation (when there
    is a distinct local policy), the trajectory and its advantages, the
    update, the reading of the new step. *)
Definition body_events (synced : bool) (summary_period : Z) (it : Iteration)
  : list Event :=
  (if synced then [EvRun [FSyncOps]] else [])
  ++ [EvNext (it_trajectory it); EvGae (it_trajectory it)]
  ++ update_events summary_period it
  ++ [EvRun [FGlobalStep]].

(** A whole iteration: the test of the stop condition, then the body. *)
Definition iteration_events (synced : bool) (summary_period : Z) (it : Iteration)
  : list Event :=
  EvShouldStop false :: body_events synced summary_period it.

(** The feed [_get_feed_dict] is expected to build from a trajectory. *)
Definition expected_feed (alg : Algorithm) (σ : store) (t : Trajectory)
    (gamma lambda_ : Qc) : FeedDict :=
  {| fd_inputs := take (num_timesteps t) (observations t);
     fd_actions := take (num_timesteps t) (actions t);
     fd_advantages := (gae (local_policy alg) σ t gamma lambda_).1;
     fd_value_targets := (gae (local_policy alg) σ t gamma lambda_).2;
     fd_state_in := if recurrent (local_policy alg)
                    then head (policy_states t) else None |}.


(** The variables after the synchronisation that opens an iteration. *)
Definition synced_vars (alg : Algorithm) (σ : store) : option store :=
  match sync_ops alg with
  | Some ops => run_ops ops σ
  | None => Some σ
  end.

(** What one pass through the body establishes between the world [w] it
    starts in and the world [w'] it ends in. *)
Definition body_post (alg : Algorithm) (summary_period : Z) (gamma lambda_ : Qc)
    (w : World) (it : Iteration) (step' last' : Z) (w' : World) : Prop :=
  ∃ σ fd l,
    synced_vars alg (vars w) = Some σ ∧
    fd_inputs fd = take (num_timesteps (it_trajectory it))
                        (observations (it_trajectory it)) ∧
    fd_actions fd = take (num_timesteps (it_trajectory it))
                         (actions (it_trajectory it)) ∧
    (fd_advantages fd, fd_value_targets fd)
    = gae (local_policy alg) σ (it_trajectory it) gamma lambda_ ∧
    losses alg σ fd = Some l ∧
    it_policy_loss it = policy_loss l ∧
    it_v_loss it = v_loss l ∧
    it_summary it = merged_summaries (local_policy alg) σ fd ∧
    vars w' = apply_gradients (local_policy alg) (global_policy alg) σ fd ∧
    global_step w' = add64 (global_step w) (Z.of_nat (length (fd_inputs fd))) ∧
    hooks w' = hooks w ∧
    trace w' = trace w ++ body_events (bool_decide (is_Some (sync_ops alg)))
                            summary_period it ∧
    step' = global_step w' ∧
    last' = (if summary_due (it_step it) (it_last_summary_step it) summary_period
             then it_step it else it_last_summary_step it).


(** *** Further reference notions for the training loop *)

(** The batch an iteration feeds for a trajectory: the observations below
    the recorded length that the trajectory really holds. *)
Definition batch_size (t : Trajectory) : Z :=
  Z.of_nat (length (take (num_timesteps t) (observations t))).

(** The value of [step] after a list of iterations. *)
Definition end_step (step : Z) (its : list Iteration) : Z :=
  foldl (λ s it, add64 s (batch_size (it_trajectory it))) step its.

(** Successive iterations hand [step] and [last_summary_step] on as the
    loop does. *)
Fixpoint chained (summary_period step last : Z) (its : list Iteration) : Prop :=
  match its with
  | [] => True
  | it :: its =>
      it_step it = step ∧ it_last_summary_step it = last ∧
      chained summary_period
        (add64 step (batch_size (it_trajectory it)))
        (if summary_due step last summary_period then step else last)
        its
  end.

(** The steps at which summary records were written. *)
Definition summary_steps (events : list Event) : list Z :=
  omap (λ e, match e with EvAddSummary _ step => Some step | _ => None end) events.


(** The events of an iteration that come before its update. *)
Definition preparatory (e : Event) : bool :=
  match e with
  | EvRun [FSyncOps] | EvNext _ | EvGae _ => true
  | _ => false
  end.

(** What an iteration that did not get to its update shows. *)
Definition interrupted (tail : list Event) : Prop :=
  tail = [] ∨
  ∃ b rest, tail = EvShouldStop b :: rest ∧ forallb preparatory rest = true.

(** Whether an event is a run of the synchronisation ops. *)
Definition is_sync_run (e : Event) : bool :=
  match e with
  | EvRun fetches =>
      existsb (λ f, match f with FSyncOps => true | _ => false end) fetches
  | _ => false
  end.

(** Whether an event is the warning about the missing checkpoint saver. *)
Definition is_warning (e : Event) : bool :=
  match e with EvWarning _ => true | _ => false end.

End WithCollab.

End A3C.

(** ** The evaluation entry point *)

Module Perform.

Import Num Tensor.
Import A3C (Policy, Trajectory).
Local Open Scope Qc_scope.

(** The collaborators of [main]: the environment, the policy that acts and
    the saver.  [Outside] is everything the program does not own (the
    simulator, the random source of the policy, its recurrent state). *)
Class Rollout := {
  Outside : Type;
  env_reset : Outside → A3C.Obs * Outside;
  env_step : A3C.Action → Outside → (A3C.Obs * Qc * bool) * Outside;
  env_render : Outside → Outside;
  policy_act : A3C.store → A3C.Obs → Outside → A3C.Action * Outside;
  saver_restore : string → option A3C.store
}.

(** The command-line arguments the loop reads. *)
Record Args := {
  checkpoint : string;
  num_episodes : nat;
  render : bool
}.

(** How a computation ends: with a value, with an exception, or not within
    the fuel of the model. *)
Inductive Outcome (A : Type) :=
| Returns (a : A)
| Throws
| Timeout.
Global Arguments Returns {A} a.
Global Arguments Throws {A}.
Global Arguments Timeout {A}.

(** What is logged and printed. *)
Inductive Output :=
| LogEpisode (number : nat) (reward mean_reward : Qc)
| PrintMean (mean variance : Qc).

(** [rewards[i] += rew]; an index out of range raises. *)
Definition add_at (i : nat) (rew : Qc) (rewards : list Qc) : option (list Qc) :=
  if decide (i < length rewards)%nat then Some (alter (λ r, r + rew) i rewards)
  else None.

(** [np.mean], and the variance whose square root [np.std] is. *)
Definition np_mean (xs : list Qc) : Qc := reduce_sum xs / Qc_of_nat (length xs).
Definition np_var (xs : list Qc) : Qc :=
  np_mean (map (λ x, (x - np_mean xs) * (x - np_mean xs)) xs).

Section WithRollout.
Context `{R : Rollout}.

Record State := {
  vars : A3C.store;
  outside : Outside;
  rewards : list Qc;
  mean_reward : Qc;
  output : list Output
}.

(** The [while not done] loop of episode [i]. *)
Fixpoint while_not_done (fuel : nat) (args : Args) (σ : A3C.store) (i : nat)
    (done : bool) (obs : A3C.Obs) (rewards : list Qc) (o : Outside)
  : Outcome (list Qc * Outside) :=
  if done then Returns (rewards, o)
  else
    match fuel with
    | O => Timeout
    | S fuel =>
        let o := if render args then env_render o else o in
        let '(action, o) := policy_act σ obs o in
        let '(obs, rew, done, o) := env_step action o in
        match add_at i rew rewards with
        | Some rewards => while_not_done fuel args σ i done obs rewards o
        | None => Throws
        end
    end.

(** The [for i in range(num_episodes)] loop over the remaining indices. *)
Fixpoint for_episodes (fuel : nat) (args : Args) (indices : list nat) (st : State)
  : Outcome State :=
  match indices with
  | [] => Returns st
  | i :: indices =>
      let '(obs, o) := env_reset (outside st) in
      match while_not_done fuel args (vars st) i false obs (rewards st) o with
      | Returns (rewards, o) =>
          match rewards !! i with
          | Some reward =>
              let mean_reward :=
                mean_reward st
                + 1 / Qc_of_nat (i + 1) * (reward - mean_reward st) in
              for_episodes fuel args indices
                {| vars := vars st;
                   outside := o;
                   rewards := rewards;
                   mean_reward := mean_reward;
                   output := output st ++ [LogEpisode (i + 1) reward mean_reward] |}
          | None => Throws
          end
      | Throws => Throws
      | Timeout => Timeout
      end
  end.

(** [main], from the creation of the session on. *)
Definition main (fuel : nat) (args : Args) (o : Outside) : Outcome State :=
  match saver_restore (checkpoint args) with
  | None => Throws
  | Some σ =>
      let st := {| vars := σ;
                   outside := o;
                   rewards := replicate (num_episodes args) 0;
                   mean_reward := 0;
                   output := [] |} in
      match for_episodes fuel args (seq 0 (num_episodes args)) st with
      | Returns st =>
          if decide (5 < num_episodes args)%nat then
            Returns {| vars := vars st;
                       outside := outside st;
                       rewards := rewards st;
                       mean_reward := mean_reward st;
                       output := output st
                                 ++ [PrintMean (np_mean (rewards st))
                                               (np_var (rewards st))] |}
          else Returns st
      | Throws => Throws
      | Timeout => Timeout
      end
  end.

(** *** Reference notions for the properties of [main] *)

(** The rewards the environment hands out, step by step, during one episode
    that starts from observation [obs]. *)
Fixpoint episode_rewards (fuel : nat) (args : Args) (σ : A3C.store)
    (done : bool) (obs : A3C.Obs) (o : Outside) : option (list Qc * Outside) :=
  if done then Some ([], o)
  else
    match fuel with
    | O => None
    | S fuel =>
        let o := if render args then env_render o else o in
        let '(action, o) := policy_act σ obs o in
        let '(obs, rew, done, o) := env_step action o in
        '(rews, o) ← episode_rewards fuel args σ done obs o;
        Some (rew :: rews, o)
    end.

(** The per-step rewards of [n] successive episodes. *)
Fixpoint episodes_rewards (fuel : nat) (args : Args) (σ : A3C.store)
    (n : nat) (o : Outside) : option (list (list Qc) * Outside) :=
  match n with
  | O => Some ([], o)
  | S n =>
      let '(obs, o) := env_reset o in
      '(rews, o) ← episode_rewards fuel args σ false obs o;
      '(rest, o) ← episodes_rewards fuel args σ n o;
      Some (rews :: rest, o)
  end.

End WithRollout.

(** The arithmetic mean of the first [k] entries. *)
Definition mean_of_first (k : nat) (xs : list Qc) : Qc :=
  reduce_sum (take k xs) / Qc_of_nat k.

(** The log lines of episodes [k .. k+m-1]: the number of the episode, its
    reward, and the mean of the rewards up to and including it. *)
Definition expected_log (rewards : list Qc) (k m : nat) : list Output :=
  (λ j, LogEpisode (j + 1) (default 0 (rewards !! j))
          (mean_of_first (j + 1) rewards)) <$> seq k m.

End Perform.

(** ** Small concrete collaborators, for the examples *)

Module Toy.

Import Num Tensor A3C.
Local Open Scope Qc_scope.

Definition two : Qc := Q2Qc 2.
Definition three : Qc := Q2Qc 3.

Definition global_p : Policy :=
  {| policy_name := "global"; var_list := ["global/w"; "global/b"];
     recurrent := false |}.

Definition local_p : Policy :=
  {| policy_name := "local"; var_list := ["local/w"; "local/b"];
     recurrent := false |}.

Definition store0 : store :=
  <["global/w" := [1; two]]> (<["global/b" := [three]]>
    (<["local/w" := [0; 0]]> (<["local/b" := [0]]> ∅))).

(** A policy whose distribution and value prediction at an observation are
    both the sum of its entries, an estimator that returns ones, an
    optimizer that lowers every entry of the global variables by one, and
    hooks of which any but the checkpoint saver asks to stop from step 6. *)
Definition collab : Collab :=
  {| Dist := Qc;
     Summary := nat;
     neglogp := λ d a, d * Qc_of_Z a;
     entropy := λ d, d;
     distribution := λ _ _ inputs _, map reduce_sum inputs;
     value_preds := λ _ _ inputs _, map reduce_sum inputs;
     gae := λ _ _ t _ _,
       (replicate (num_timesteps t) 1, replicate (num_timesteps t) 1);
     apply_gradients := λ _ gp σ _,
       foldr (λ v acc, alter (map (λ x, x - 1)) v acc) σ (var_list gp);
     merged_summaries := λ _ _ fd, length (fd_inputs fd);
     request_stop := λ hs step,
       existsb (λ h, negb (is_checkpoint_saver h) && (6 <=? step)%Z) hs;
     restore := λ c, if decide (c = "ckpt"%string) then Some (store0, 100%Z) else None |}.

Definition defaults : InitDefaults := (class_BaseA3CAlgorithm ∅).1.
Definition heap0 : heap := (class_BaseA3CAlgorithm ∅).2.

Definition args : InitArgs :=
  {| arg_trajectory_length := 3;
     arg_global_policy := global_p;
     arg_local_policy := Some local_p;
     arg_queue := None;
     arg_entropy_coef := None;
     arg_value_loss_coef := None;
     arg_name := None |}.

Definition alg : Algorithm := __init__ defaults args.

(** Trajectories with room for three steps, of which two or three were
    really taken. *)
Definition t1 : Trajectory :=
  {| observations := [[1]; [two]; [three]]; actions := [0; 1; 0]%Z;
     policy_states := []; num_timesteps := 2 |}.
Definition t2 : Trajectory :=
  {| observations := [[0]; [1]; [1]]; actions := [1; 1; 0]%Z;
     policy_states := []; num_timesteps := 3 |}.
Definition t3 : Trajectory :=
  {| observations := [[two]; [two]; [0]]; actions := [0; 0; 1]%Z;
     policy_states := []; num_timesteps := 2 |}.

Definition gamma0 : Qc := Q2Qc 0.99.
Definition lambda0 : Qc := Q2Qc 0.95.

Definition feed1 : FeedDict :=
  expected_feed (C := collab) alg store0 t1 gamma0 lambda0.

Definition w0 : World (C := collab) :=
  {| vars := store0; global_step := 0; stop_requested := false; hooks := [];
     queues := heap0; upcoming := [t1; t2; t3]; trace := [] |}.

(** A run of the loop on the three trajectories, with a budget of 7 steps
    and a summary every 3 steps. *)
Definition run : Result (C := collab) unit :=
  train_loop (C := collab) 5 alg 7 3 gamma0 lambda0 0 (sub64 0 3) w0.


Definition eval_args : Perform.Args :=
  {| Perform.checkpoint := "ckpt"; Perform.num_episodes := 2;
     Perform.render := false |}.

(** A local policy with one variable more than the global policy has, and
    a store in which that variable is initialised. *)
Definition wide_p : Policy :=
  {| policy_name := "wide"; var_list := ["local/w"; "local/b"; "local/extra"];
     recurrent := false |}.

Definition wide_args : InitArgs :=
  {| arg_trajectory_length := 3;
     arg_global_policy := global_p;
     arg_local_policy := Some wide_p;
     arg_queue := None;
     arg_entropy_coef := None;
     arg_value_loss_coef := None;
     arg_name := None |}.

Definition wide_store : store := <["local/extra" := [two]]> store0.

(** A recurrent local policy; the trajectories above record no policy
    state. *)
Definition recurrent_p : Policy :=
  {| policy_name := "recurrent"; var_list := ["local/w"; "local/b"];
     recurrent := true |}.

Definition recurrent_alg : Algorithm :=
  __init__ defaults
    {| arg_trajectory_length := 3;
       arg_global_policy := global_p;
       arg_local_policy := Some recurrent_p;
       arg_queue := None;
       arg_entropy_coef := None;
       arg_value_loss_coef := None;
       arg_name := None |}.

(** Arguments that leave the local policy out. *)
Definition shared_args : InitArgs :=
  {| arg_trajectory_length := 3;
     arg_global_policy := global_p;
     arg_local_policy := None;
     arg_queue := None;
     arg_entropy_coef := None;
     arg_value_loss_coef := None;
     arg_name := None |}.

(** An environment that never ends an episode. *)
Definition endless : Perform.Rollout :=
  {| Perform.Outside := nat;
     Perform.env_reset := λ o, ([0], o);
     Perform.env_step := λ _ o, (([Qc_of_nat o], 1, false), S o);
     Perform.env_render := λ o, o;
     Perform.policy_act := λ _ _ o, (0%Z, o);
     Perform.saver_restore := λ c,
       if decide (c = "ckpt"%string) then Some store0 else None |}.

End Toy.

(* ===================================================================== *)
(** * Part II: properties                                                 *)
(* ===================================================================== *)

(** ** Synchronisation *)

Module SyncProps.

Import Num Tensor A3C.

Lemma run_ops_assigns (ops : list Op) (σ : store) :
  NoDup (op_target <$> ops) →
  (∀ o o', o ∈ ops → o' ∈ ops → op_source o ≠ op_target o') →
  (∀ o, o ∈ ops → is_Some (σ !! op_source o)) →
  ∃ σ', run_ops ops σ = Some σ' ∧
    (∀ o, o ∈ ops → σ' !! op_target o = σ !! op_source o) ∧
    (∀ v, v ∉ op_target <$> ops → σ' !! v = σ !! v).
Proof.
  revert σ. induction ops as [|[a b] ops IH]; intros σ Hnd Hsep Hinit.
  - exists σ. split; [done|]. split; [|done]. intros o Ho. by apply elem_of_nil in Ho.
  - rewrite fmap_cons in Hnd. apply list.NoDup_cons in Hnd as [Ha Hnd].
    destruct (Hinit (Assign a b)) as [x Hx]; [left|]. simpl in Hx.
    destruct (IH (<[a:=x]> σ)) as (σ' & Hrun & Hcopy & Hkeep).
    + done.
    + intros o o' Ho Ho'. apply Hsep; by right.
    + intros o Ho. rewrite lookup_insert_ne.
      * apply Hinit. by right.
      * intros ->. eapply (Hsep o (Assign (op_source o) b)); [by right|left|done].
    + exists σ'. split; [simpl; by rewrite Hx|]. split.
      * intros o Ho. apply elem_of_cons in Ho as [->|Ho].
        -- simpl. rewrite Hkeep by done. by rewrite lookup_insert_eq.
        -- rewrite Hcopy by done. apply lookup_insert_ne.
           intros Heq. eapply (Hsep o (Assign a b)); [by right|left|done].
      * intros v Hv. rewrite fmap_cons in Hv. apply not_elem_of_cons in Hv as [Hne Hv].
        rewrite Hkeep by done. by apply lookup_insert_ne.
Qed.

Lemma elem_of_zip_assign (l g : list string) (o : Op) :
  o ∈ zip_with Assign l g → op_target o ∈ l ∧ op_source o ∈ g.
Proof.
  intros Ho. apply list_elem_of_lookup in Ho as [i Hi].
  apply lookup_zip_with_Some in Hi as (v1 & v2 & -> & H1 & H2). simpl.
  split; eapply list_elem_of_lookup_2; eauto.
Qed.

Lemma targets_zip_assign (l g : list string) :
  op_target <$> zip_with Assign l g = take (length g) l.
Proof.
  revert g. induction l as [|a l IH]; intros [|b g]; simpl; try done.
  by rewrite IH.
Qed.

(** C1.  With a distinct local policy (its variables are pairwise distinct
    and none of them is a global variable), the synchronisation group built
    by [__init__] can be run on every store in which the global variables
    are initialised, in whatever order the group schedules its assigns, and
    every run leaves, at each position [i], the value of the [i]-th global
    variable in the [i]-th local variable: local and global values agree
    afterwards, and no global variable has changed. *)
Theorem sync_copies_global_into_local (defaults : InitDefaults) (args : InitArgs)
    (lp : Policy) (σ : store) :
  arg_local_policy args = Some lp →
  NoDup (var_list lp) →
  (∀ v, v ∈ var_list lp → v ∉ var_list (arg_global_policy args)) →
  (∀ v, v ∈ var_list (arg_global_policy args) → is_Some (σ !! v)) →
  ∃ ops, sync_ops (__init__ defaults args) = Some ops ∧
    (∃ σ', run_group ops σ σ') ∧
    ∀ σ', run_group ops σ σ' →
      (∀ i v1 v2,
         var_list lp !! i = Some v1 →
         var_list (arg_global_policy args) !! i = Some v2 →
         σ' !! v1 = σ !! v2 ∧ σ' !! v1 = σ' !! v2) ∧
      (∀ v, v ∈ var_list (arg_global_policy args) → σ' !! v = σ !! v).
Proof.
  intros Hlp Hnd Hdisj Hinit.
  set (gp := arg_global_policy args) in *.
  exists (zip_with Assign (var_list lp) (var_list gp)).
  split; [unfold __init__; simpl; by rewrite Hlp|].
  assert (Hany : ∀ order, order ≡ₚ zip_with Assign (var_list lp) (var_list gp) →
    ∃ σ', run_ops order σ = Some σ' ∧
      (∀ o, o ∈ order → σ' !! op_target o = σ !! op_source o) ∧
      (∀ v, v ∉ op_target <$> order → σ' !! v = σ !! v)).
  { intros order Hperm. apply run_ops_assigns.
    - rewrite Hperm, targets_zip_assign. eapply sublist_NoDup; [exact Hnd|apply sublist_take].
    - intros o o' Ho Ho'. rewrite Hperm in Ho, Ho'.
      apply elem_of_zip_assign in Ho as [_ Ho], Ho' as [Ho' _].
      intros Heq. apply (Hdisj (op_target o')); [done|by rewrite <- Heq].
    - intros o Ho. rewrite Hperm in Ho. apply elem_of_zip_assign in Ho as [_ Ho]. auto. }
  split.
  - destruct (Hany _ (reflexivity _)) as (σ' & Hrun & _). exists σ'. eexists. split; [reflexivity|done].
  - intros σ' (order & Hperm & Hrun).
    destruct (Hany _ Hperm) as (σ'' & Hrun' & Hcopy & Hkeep).
    rewrite Hrun in Hrun'. injection Hrun' as <-.
    assert (Hglobal : ∀ v, v ∈ var_list gp → σ' !! v = σ !! v).
    { intros v Hv. apply Hkeep. rewrite Hperm, targets_zip_assign.
      intros Hin. apply elem_of_take in Hin as (j & Hj & _).
      apply (Hdisj v); [|done]. eapply list_elem_of_lookup_2; eauto. }
    split; [|done].
    intros i v1 v2 H1 H2.
    assert (Hmem : Assign v1 v2 ∈ order).
    { rewrite Hperm. apply list_elem_of_lookup. exists i.
      apply lookup_zip_with_Some. eauto. }
    apply Hcopy in Hmem. simpl in Hmem. split; [done|].
    rewrite Hmem. symmetry. apply Hglobal. eapply list_elem_of_lookup_2; eauto.
Qed.

End SyncProps.

(** ** The loss *)

Module LossProps.

Import Num Tensor A3C.
Local Open Scope Qc_scope.

Lemma sum_over_S (n : nat) (f : nat → Qc) :
  sum_over (S n) f = f 0%nat + sum_over n (λ t, f (S t)).
Proof.
  unfold sum_over. simpl. f_equal.
  rewrite <- fmap_S_seq. generalize (seq 0 n). intros l.
  induction l as [|x l IH]; [done|]. simpl. f_equal. exact IH.
Qed.

Lemma sum_over_ext (n : nat) (f g : nat → Qc) :
  (∀ t, (t < n)%nat → f t = g t) → sum_over n f = sum_over n g.
Proof.
  revert f g. induction n as [|n IH]; intros f g Hfg; [done|].
  rewrite !sum_over_S. rewrite (Hfg 0%nat) by lia. f_equal.
  apply IH. intros t Ht. apply Hfg. lia.
Qed.

Lemma reduce_sum_sum_over (xs : tensor) :
  reduce_sum xs = sum_over (length xs) (λ t, default 0 (xs !! t)).
Proof.
  induction xs as [|x xs IH]; [done|].
  simpl length. rewrite sum_over_S. simpl. by rewrite IH.
Qed.

Lemma broadcast2_same_length (f : Qc → Qc → Qc) (xs ys : tensor) :
  length xs = length ys → broadcast2 f xs ys = Some (zip_with f xs ys).
Proof. intros Hlen. unfold broadcast2. by rewrite decide_True. Qed.

Section Loss.
Context `{C : Collab}.

Lemma build_loss_batch (ec vc : Qc) (pd : list Dist) (preds : tensor)
    (acts : list Action) (advantages value_targets : tensor) (n : nat) :
  length pd = n → length preds = n → length acts = n →
  length advantages = n → length value_targets = n →
  ∃ l, build_loss ec vc pd preds acts advantages value_targets = Some l ∧
    policy_loss l = sum_over n (policy_term pd acts advantages)
                    - ec * sum_over n (entropy_term pd) ∧
    v_loss l = sum_over n (squared_error preds value_targets) ∧
    loss l = policy_loss l + vc * v_loss l.
Proof.
  intros Hpd Hpreds Hacts Hadv Htargets.
  unfold build_loss, pd_neglogp, mul, sub.
  rewrite decide_True by congruence. simpl.
  rewrite (broadcast2_same_length _ (zip_with neglogp pd acts) advantages).
  2:{ rewrite length_zip_with. lia. }
  simpl. rewrite broadcast2_same_length by congruence. simpl.
  eexists. split; [reflexivity|]. simpl. split; [|split; [|reflexivity]].
  - f_equal.
    + rewrite reduce_sum_sum_over, !length_zip_with.
      rewrite Hpd, Hacts, Hadv, !Nat.min_id.
      apply sum_over_ext. intros t Ht. unfold policy_term.
      rewrite !lookup_zip_with.
      destruct (pd !! t), (acts !! t), (advantages !! t); done.
    + f_equal. unfold pd_entropy. rewrite reduce_sum_sum_over, length_map, Hpd.
      apply sum_over_ext. intros t Ht. unfold entropy_term.
      rewrite list_lookup_fmap. by destruct (pd !! t).
  - unfold square. rewrite reduce_sum_sum_over, length_map, length_zip_with.
    rewrite Hpreds, Htargets, Nat.min_id.
    apply sum_over_ext. intros t Ht. unfold squared_error.
    rewrite list_lookup_fmap, lookup_zip_with.
    destruct (preds !! t), (value_targets !! t); done.
Qed.

(** C2.  For an instance built by [__init__], on a batch of [n] samples the
    policy loss is the sum over the batch of [neglogp(a_t) * A_t] minus
    [entropy_coef] times the sum of the entropies, the value loss is the sum
    of the squared differences between predictions and targets, and the
    total loss is [policy_loss + value_loss_coef * v_loss]; the
    coefficients are those passed, and [0.01] and [0.25] when left out. *)
Theorem loss_of_init (h : heap) (args : InitArgs) (σ : store) (fd : FeedDict)
    (n : nat) :
  let alg := __init__ (class_BaseA3CAlgorithm h).1 args in
  let pd := distribution (local_policy alg) σ (fd_inputs fd) (fd_state_in fd) in
  let preds := value_preds (local_policy alg) σ (fd_inputs fd) (fd_state_in fd) in
  length pd = n → length preds = n → length (fd_actions fd) = n →
  length (fd_advantages fd) = n → length (fd_value_targets fd) = n →
  entropy_coef alg = default (Q2Qc 0.01) (arg_entropy_coef args) ∧
  value_loss_coef alg = default (Q2Qc 0.25) (arg_value_loss_coef args) ∧
  ∃ l, losses alg σ fd = Some l ∧
    policy_loss l
    = sum_over n (policy_term pd (fd_actions fd) (fd_advantages fd))
      - entropy_coef alg * sum_over n (entropy_term pd) ∧
    v_loss l = sum_over n (squared_error preds (fd_value_targets fd)) ∧
    loss l = policy_loss l + value_loss_coef alg * v_loss l.
Proof.
  intros alg pd preds Hpd Hpreds Hacts Hadv Htargets.
  split; [reflexivity|]. split; [reflexivity|].
  unfold losses. by apply build_loss_batch.
Qed.

End Loss.

End LossProps.

(** ** Feeding and sessions *)

Module SessionProps.

Import Num Tensor A3C.
Local Open Scope Qc_scope.

(** *** Arithmetic on [int64] *)

Lemma wrap64_in_range (z : Z) : in_int64 z → wrap64 z = z.
Proof.
  unfold in_int64, int64_min, int64_max, wrap64. intros Hz.
  rewrite Z.mod_small; lia.
Qed.

Lemma wrap64_is_in_int64 (z : Z) : in_int64 (wrap64 z).
Proof.
  unfold in_int64, int64_min, int64_max, wrap64.
  pose proof (Z.mod_pos_bound (z + 2 ^ 63) (2 ^ 64)). lia.
Qed.




Section WithCollab.
Context `{C : Collab}.

Lemma bind_Ok {A B} (m : M A) (k : A → M B) (w w' : World) (a : A) :
  m w = Ok a w' → (m ≫= k) w = k a w'.
Proof. intros Hm. unfold mbind, M_bind, bind. by rewrite Hm. Qed.

Lemma bind_Ok_inv {A B} (m : M A) (k : A → M B) (w w' : World) (b : B) :
  (m ≫= k) w = Ok b w' → ∃ a w1, m w = Ok a w1 ∧ k a w1 = Ok b w'.
Proof.
  unfold mbind, M_bind, bind. destruct (m w) as [a w1| | |]; try done. eauto.
Qed.

(** C6.  [_managed_session] creates the session whenever the checkpoint to
    restore, if any, is readable.  Without a checkpoint period the hooks
    are the caller's, and when none of them is a checkpoint saver the
    warning is logged just before the session is created; with a period
    [p] a checkpoint saver with [save_steps = p] is appended to the hooks
    the session is created with. *)
Theorem managed_session_saver_hook (dir : string) (ckpt : option string)
    (period : option Z) (hs : option (list Hook)) (config : ConfigArg) (w : World) :
  match ckpt with Some c => is_Some (restore c) | None => True end →
  ∃ w' cfg restored,
    _managed_session dir ckpt period hs config w = Ok tt w' ∧
    match period with
    | None =>
        hooks w' = default [] hs ∧
        (existsb is_checkpoint_saver (default [] hs) = false →
         trace w' = trace w ++ [EvWarning no_saver_warning;
                                EvSessionCreated (default [] hs) cfg] ++ restored)
    | Some p =>
        hooks w' = default [] hs ++ [CheckpointSaverHook dir p] ∧
        trace w' = trace w ++ [EvSessionCreated (hooks w') cfg] ++ restored
    end.
Proof.
  intros Hckpt. unfold _managed_session.
  set (cfg := match config with USE_DEFAULT => Some _get_default_config | Config c => c end).
  set (hs0 := default [] hs).
  assert (Hrest : ∀ w0 : World, ∃ w' restored,
    match ckpt with Some c => saver_restore c | None => mret tt end w0 = Ok tt w' ∧
    hooks w' = hooks w0 ∧ trace w' = trace w0 ++ restored).
  { intros w0. destruct ckpt as [c|].
    - destruct Hckpt as [[σ step] Hc]. unfold saver_restore. rewrite Hc.
      eexists _, [_]. split; [reflexivity|]. by simpl.
    - eexists _, []. split; [reflexivity|]. simpl. by rewrite app_nil_r. }
  destruct period as [p|].
  - destruct (Hrest (add_event (EvSessionCreated (hs0 ++ [CheckpointSaverHook dir p]) cfg)
                      (set_hooks (hs0 ++ [CheckpointSaverHook dir p]) w)))
      as (w' & restored & Hrun & Hhooks & Htrace).
    exists w', cfg, restored. split; [exact Hrun|]. simpl in *.
    rewrite Hhooks, Htrace. split; [done|]. by rewrite <- app_assoc.
  - destruct (existsb is_checkpoint_saver hs0) eqn:Hsaver; simpl.
    + destruct (Hrest (add_event (EvSessionCreated hs0 cfg) (set_hooks hs0 w)))
        as (w' & restored & Hrun & Hhooks & Htrace).
      exists w', cfg, restored. split; [exact Hrun|]. split; [done|]. done.
    + destruct (Hrest (add_event (EvSessionCreated hs0 cfg)
                        (set_hooks hs0 (add_event (EvWarning no_saver_warning) w))))
        as (w' & restored & Hrun & Hhooks & Htrace).
      exists w', cfg, restored. split; [exact Hrun|]. split; [done|].
      intros _. rewrite Htrace. simpl. by rewrite <- !app_assoc.
Qed.

(** *** Inversion of the primitives of the loop body *)

Lemma sess_run_inv (alg : Algorithm) (fetches : list Fetch)
    (feed_dict : option FeedDict) (w w' : World) (values : list Fetched) :
  sess_run alg fetches feed_dict w = Ok values w' →
  ∃ w1, mapM (fetch_value alg w feed_dict) fetches = Some values ∧
    run_effects alg feed_dict fetches w = Some w1 ∧
    w' = add_event (EvRun fetches)
           (set_stop_requested
              (stop_requested w1 || request_stop (hooks w1) (global_step w1)) w1).
Proof.
  unfold sess_run. intros Hrun.
  destruct (mapM _ fetches) as [vs|]; [|done].
  destruct (run_effects _ _ _ _) as [w1|]; [|done].
  injection Hrun as <- <-. eauto.
Qed.

Lemma read_global_step_inv (alg : Algorithm) (w w' : World) (step : Z) :
  read_global_step alg w = Ok step w' →
  step = global_step w ∧ vars w' = vars w ∧ global_step w' = global_step w ∧
  hooks w' = hooks w ∧ trace w' = trace w ++ [EvRun [FGlobalStep]].
Proof.
  unfold read_global_step. intros Hrun.
  apply bind_Ok_inv in Hrun as (values & w1 & Hrun & Hret).
  apply sess_run_inv in Hrun as (w2 & Hvalues & Heffects & ->).
  simpl in Hvalues, Heffects. injection Hvalues as <-. injection Heffects as <-.
  injection Hret as <- <-. done.
Qed.

Lemma sync_step_inv (alg : Algorithm) (w w' : World) :
  match sync_ops alg with
  | Some _ => _ ← sess_run alg [FSyncOps] None; mret tt
  | None => mret tt
  end w = Ok tt w' →
  ∃ σ, synced_vars alg (vars w) = Some σ ∧
    vars w' = σ ∧ global_step w' = global_step w ∧ hooks w' = hooks w ∧
    queues w' = queues w ∧ upcoming w' = upcoming w ∧
    trace w' = trace w ++ (if bool_decide (is_Some (sync_ops alg))
                           then [EvRun [FSyncOps]] else []).
Proof.
  unfold synced_vars. destruct (sync_ops alg) as [ops|] eqn:Hops; intros Hrun.
  - apply bind_Ok_inv in Hrun as (values & w1 & Hrun & Hret).
    injection Hret as <-.
    apply sess_run_inv in Hrun as (w2 & _ & Heffects & ->).
    simpl in Heffects. rewrite Hops in Heffects. simpl in Heffects.
    destruct (run_ops ops (vars w)) as [σ|]; [|done].
    injection Heffects as <-. exists σ. done.
  - injection Hrun as <-. exists (vars w). simpl. by rewrite app_nil_r.
Qed.

Lemma _get_feed_dict_inv (alg : Algorithm) (gamma lambda_ : Qc)
    (w w' : World) (fd : FeedDict) :
  _get_feed_dict alg gamma lambda_ w = Ok fd w' →
  ∃ t, fd_inputs fd = take (num_timesteps t) (observations t) ∧
    fd_actions fd = take (num_timesteps t) (actions t) ∧
    (fd_advantages fd, fd_value_targets fd)
    = gae (local_policy alg) (vars w) t gamma lambda_ ∧
    vars w' = vars w ∧ global_step w' = global_step w ∧ hooks w' = hooks w ∧
    trace w' = trace w ++ [EvNext t; EvGae t].
Proof.
  unfold _get_feed_dict. intros Hrun.
  apply bind_Ok_inv in Hrun as (t & w1 & Hnext & Hrun).
  assert (Hw1 : vars w1 = vars w ∧ global_step w1 = global_step w ∧
                hooks w1 = hooks w ∧ trace w1 = trace w ++ [EvNext t]).
  { unfold producer_next in Hnext. destruct (producer_fill _ _ _) as [up h].
    destruct (queue_get _ h) as [[t' h']|]; [|done].
    injection Hnext as <- <-. done. }
  destruct Hw1 as (Hvars & Hstep & Hhooks & Htrace).
  apply bind_Ok_inv in Hrun as ([advantages value_targets] & w2 & Hgae & Hrun).
  unfold call_gae in Hgae. injection Hgae as Hgae <-.
  assert (Hend : ∀ fd0 : FeedDict,
    fd_inputs fd0 = take (num_timesteps t) (observations t) →
    fd_actions fd0 = take (num_timesteps t) (actions t) →
    fd_advantages fd0 = advantages → fd_value_targets fd0 = value_targets →
    Ok fd0 (add_event (EvGae t) w1) = Ok fd w' →
    ∃ t, fd_inputs fd = take (num_timesteps t) (observations t) ∧
      fd_actions fd = take (num_timesteps t) (actions t) ∧
      (fd_advantages fd, fd_value_targets fd)
      = gae (local_policy alg) (vars w) t gamma lambda_ ∧
      vars w' = vars w ∧ global_step w' = global_step w ∧ hooks w' = hooks w ∧
      trace w' = trace w ++ [EvNext t; EvGae t]).
  { intros fd0 Hi Ha Hadv Hvt Heq. injection Heq as <- <-. exists t. simpl.
    rewrite Hi, Ha, Hadv, Hvt, Hvars, Hstep, Hhooks, Htrace, <- app_assoc.
    rewrite <- Hvars, Hgae. done. }
  destruct (recurrent (local_policy alg)).
  - destruct (policy_states t) as [|state rest]; [done|].
    eapply Hend; [..|exact Hrun]; done.
  - eapply Hend; [..|exact Hrun]; done.
Qed.

Lemma train_op_run_inv (alg : Algorithm) (fd : FeedDict) (w w' : World)
    (values : list Fetched) :
  sess_run alg [FTrainOp] (Some fd) w = Ok values w' →
  ∃ l, losses alg (vars w) fd = Some l ∧
    vars w' = apply_gradients (local_policy alg) (global_policy alg) (vars w) fd ∧
    global_step w' = add64 (global_step w) (Z.of_nat (length (fd_inputs fd))) ∧
    hooks w' = hooks w ∧
    trace w' = trace w ++ [EvRun [FTrainOp]].
Proof.
  intros Hrun. apply sess_run_inv in Hrun as (w1 & Hvalues & Heffects & ->).
  simpl in Hvalues, Heffects. injection Heffects as <-.
  destruct (losses alg (vars w) fd) as [l|]; [|done]. exists l. done.
Qed.

Lemma summary_run_inv (alg : Algorithm) (fd : FeedDict) (w w' : World)
    (values : list Fetched) :
  sess_run alg [FPolicyLoss; FVLoss; FSummaries; FTrainOp] (Some fd) w
  = Ok values w' →
  ∃ l, losses alg (vars w) fd = Some l ∧
    values = [VScalar (policy_loss l); VScalar (v_loss l);
              VSummary (merged_summaries (local_policy alg) (vars w) fd); VNone] ∧
    vars w' = apply_gradients (local_policy alg) (global_policy alg) (vars w) fd ∧
    global_step w' = add64 (global_step w) (Z.of_nat (length (fd_inputs fd))) ∧
    hooks w' = hooks w ∧
    trace w' = trace w ++ [EvRun [FPolicyLoss; FVLoss; FSummaries; FTrainOp]].
Proof.
  intros Hrun. apply sess_run_inv in Hrun as (w1 & Hvalues & Heffects & ->).
  simpl in Hvalues, Heffects. injection Heffects as <-.
  destruct (losses alg (vars w) fd) as [l|]; [|done].
  simpl in Hvalues. injection Hvalues as <-. exists l. done.
Qed.

Lemma train_body_spec (alg : Algorithm) (summary_period : Z) (gamma lambda_ : Qc)
    (step last step' last' : Z) (w w' : World) :
  train_body alg summary_period gamma lambda_ step last w = Ok (step', last') w' →
  ∃ it, it_step it = step ∧ it_last_summary_step it = last ∧
    body_post alg summary_period gamma lambda_ w it step' last' w'.
Proof.
  unfold train_body. intros Hrun.
  apply bind_Ok_inv in Hrun as ([] & w1 & Hsync & Hrun).
  apply sync_step_inv in Hsync as (σ & Hσ & Hvars1 & Hstep1 & Hhooks1 & _ & _ & Htrace1).
  apply bind_Ok_inv in Hrun as (fd & w2 & Hfeed & Hrun).
  apply _get_feed_dict_inv in Hfeed
    as (t & Hinputs & Hactions & Hgae & Hvars2 & Hstep2 & Hhooks2 & Htrace2).
  apply bind_Ok_inv in Hrun as (last2 & w3 & Hupdate & Hrun).
  apply bind_Ok_inv in Hrun as (step2 & w4 & Hread & Hret).
  injection Hret as -> -> ->.
  apply read_global_step_inv in Hread as (-> & Hvars4 & Hstep4 & Hhooks4 & Htrace4).
  rewrite Hvars1 in Hvars2. rewrite Hvars1 in Hgae.
  assert (Hupd : ∃ l,
    losses alg σ fd = Some l ∧
    vars w3 = apply_gradients (local_policy alg) (global_policy alg) σ fd ∧
    global_step w3 = add64 (global_step w) (Z.of_nat (length (fd_inputs fd))) ∧
    hooks w3 = hooks w ∧
    last' = (if summary_due step last summary_period then step else last) ∧
    trace w3 = trace w2 ++
      update_events summary_period
        {| it_step := step; it_last_summary_step := last; it_trajectory := t;
           it_policy_loss := policy_loss l; it_v_loss := v_loss l;
           it_summary := merged_summaries (local_policy alg) σ fd |}).
  { unfold update_events. simpl.
    destruct (summary_due step last summary_period).
    - apply bind_Ok_inv in Hupdate as (values & w5 & Hrun & Hlog).
      apply summary_run_inv in Hrun as (l & Hl & -> & Hv & Hs & Hh & Ht).
      simpl in Hlog. injection Hlog as <- <-. exists l.
      rewrite Hvars2 in Hl, Hv. rewrite Hstep2, Hstep1 in Hs.
      rewrite Hhooks2, Hhooks1 in Hh. simpl.
      rewrite Ht, Hvars2, <- !app_assoc. repeat split; done.
    - apply bind_Ok_inv in Hupdate as (values & w5 & Hrun & Hret).
      injection Hret as <- <-.
      apply train_op_run_inv in Hrun as (l & Hl & Hv & Hs & Hh & Ht).
      exists l. rewrite Hvars2 in Hl, Hv. rewrite Hstep2, Hstep1 in Hs.
      rewrite Hhooks2, Hhooks1 in Hh. done. }
  destruct Hupd as (l & Hl & Hv3 & Hs3 & Hh3 & Hlast & Ht3).
  exists {| it_step := step; it_last_summary_step := last; it_trajectory := t;
            it_policy_loss := policy_loss l; it_v_loss := v_loss l;
            it_summary := merged_summaries (local_policy alg) σ fd |}.
  split; [done|]. split; [done|]. exists σ, fd, l.
  simpl. rewrite Hvars4, Hstep4, Hhooks4, Htrace4, Ht3, Htrace2, Htrace1.
  unfold body_events. simpl. rewrite <- !app_assoc. simpl.
  repeat split; done.
Qed.

(** *** The loop *)


Lemma pulled_iteration_events (synced : bool) (p : Z) (it : Iteration) :
  pulled (iteration_events synced p it) = [it_trajectory it].
Proof.
  unfold iteration_events, body_events, update_events, pulled.
  destruct synced, (summary_due _ _ _); reflexivity.
Qed.

Lemma pulled_app (l k : list Event) : pulled (l ++ k) = pulled l ++ pulled k.
Proof. apply omap_app. Qed.

Lemma pulled_iterations (synced : bool) (p : Z) (its : list Iteration) :
  pulled (concat (iteration_events synced p <$> its)) = it_trajectory <$> its.
Proof.
  induction its as [|it its IH]; [done|].
  rewrite fmap_cons, concat_cons, pulled_app, pulled_iteration_events, IH. done.
Qed.


Lemma total_timesteps_nonneg (ts : list Trajectory) : (0 ≤ total_timesteps ts)%Z.
Proof. induction ts as [|t ts IH]; simpl; lia. Qed.


(** *** Forward reasoning on the loop body *)









Lemma count_updates_app (l k : list Event) :
  count_updates (l ++ k) = (count_updates l + count_updates k)%nat.
Proof. unfold count_updates. by rewrite list.filter_app, length_app. Qed.

Lemma count_updates_iteration (synced : bool) (p : Z) (it : Iteration) :
  count_updates (iteration_events synced p it) = 1%nat.
Proof.
  unfold iteration_events, body_events, update_events.
  destruct synced, (summary_due _ _ _); reflexivity.
Qed.

Lemma count_updates_iterations (synced : bool) (p : Z) (its : list Iteration) :
  count_updates (concat (iteration_events synced p <$> its)) = length its.
Proof.
  induction its as [|it its IH]; [done|].
  rewrite fmap_cons, concat_cons, count_updates_app, count_updates_iteration, IH.
  done.
Qed.






(** *** Runs that do not end normally *)

Lemma bind_cases {A B} (m : M A) (k : A → M B) (w : World) :
  (is_Ok (m w) = false ∧ is_Ok ((m ≫= k) w) = false
   ∧ final ((m ≫= k) w) = final (m w))
  ∨ (∃ a w1, m w = Ok a w1 ∧ (m ≫= k) w = k a w1).
Proof.
  unfold mbind, M_bind, bind. destruct (m w) as [a w1|w1|w1|w1]; eauto.
Qed.

(** [case_bind at w as pat]: split on whether the first computation of
    the bind that is run on [w] ends normally. *)
Tactic Notation "case_bind" "at" constr(w) "as" simple_intropattern(pat) :=
  match goal with
  | |- context [(?m ≫= ?k) w] => destruct (bind_cases m k w) as pat
  end.

Lemma sess_run_failed (alg : Algorithm) (fetches : list Fetch)
    (feed_dict : option FeedDict) (w : World) :
  is_Ok (sess_run alg fetches feed_dict w) = false →
  final (sess_run alg fetches feed_dict w) = w.
Proof.
  unfold sess_run. destruct (mapM _ _); [|done].
  destruct (run_effects _ _ _ _); done.
Qed.

Lemma read_global_step_Ok (alg : Algorithm) (w : World) :
  ∃ w', read_global_step alg w = Ok (global_step w) w'.
Proof. eexists. reflexivity. Qed.

Lemma sync_step_failed (alg : Algorithm) (w : World) :
  let r := match sync_ops alg with
           | Some _ => _ ← sess_run alg [FSyncOps] None; mret tt
           | None => mret tt
           end w in
  is_Ok r = false → final r = w.
Proof.
  simpl. destruct (sync_ops alg) as [ops|]; [|done].
  destruct (bind_cases (sess_run alg [FSyncOps] None) (λ _, mret tt) w)
    as [(Hfail & _ & ->)|(a & w1 & Hrun & ->)]; [|done].
  intros _. by apply sess_run_failed.
Qed.

Lemma producer_next_failed (tp : TrajectoryProducer) (w : World) :
  is_Ok (producer_next tp w) = false →
  trace (final (producer_next tp w)) = trace w.
Proof.
  unfold producer_next. destruct (producer_fill _ _ _) as [up h].
  destruct (queue_get _ h) as [[t h']|]; done.
Qed.


Lemma update_step_failed (alg : Algorithm) (p step last : Z) (fd : FeedDict)
    (w : World) :
  let r := (if summary_due step last p then
              results ← sess_run alg [FPolicyLoss; FVLoss; FSummaries; FTrainOp]
                          (Some fd);
              match removelast results with
              | [VScalar policy_loss; VScalar v_loss; VSummary summary] =>
                  emit (EvInfoLosses step policy_loss v_loss);;
                  emit (EvAddSummary summary step);;
                  mret step
              | _ => raise
              end
            else
              _ ← sess_run alg [FTrainOp] (Some fd);
              mret last) w in
  is_Ok r = false → final r = w.
Proof.
  simpl. destruct (summary_due step last p).
  - case_bind at w as [(Hfail & _ & ->)|(a & w1 & Hrun & ->)].
    + intros _. by apply sess_run_failed.
    + apply summary_run_inv in Hrun as (l & _ & -> & _). done.
  - case_bind at w as [(Hfail & _ & ->)|(a & w1 & Hrun & ->)].
    + intros _. by apply sess_run_failed.
    + done.
Qed.


Lemma train_loop_S (fuel : nat) (alg : Algorithm) (num_steps p : Z)
    (gamma lambda_ : Qc) (step last : Z) (w : World) :
  train_loop (S fuel) alg num_steps p gamma lambda_ step last w
  = if negb (stop_requested w) && (step <? num_steps)%Z then
      ('(step, last) ← train_body alg p gamma lambda_ step last;
       train_loop fuel alg num_steps p gamma lambda_ step last)
        (add_event (EvShouldStop (stop_requested w)) w)
    else Ok tt (add_event (EvShouldStop (stop_requested w)) w).
Proof.
  simpl. unfold mbind at 1, M_bind at 1, bind at 1, should_stop.
  by destruct (negb (stop_requested w) && (step <? num_steps)%Z).
Qed.






End WithCollab.

(** C9.  The default queue is allocated once, by the class statement, with
    capacity 5; every instance built without a [queue] argument hands that
    same object to its trajectory producer, so two such instances share it:
    what is put through the queue of one is what the other gets. *)
Theorem default_queue_is_shared (h : heap) (args1 args2 : InitArgs) :
  arg_queue args1 = None → arg_queue args2 = None →
  let defaults := (class_BaseA3CAlgorithm h).1 in
  let h' := (class_BaseA3CAlgorithm h).2 in
  let q1 := tp_queue (trajectory_producer (__init__ defaults args1)) in
  let q2 := tp_queue (trajectory_producer (__init__ defaults args2)) in
  h !! default_queue defaults = None ∧
  h' !! default_queue defaults = Some {| maxsize := 5; items := [] |} ∧
  q1 = default_queue defaults ∧ q2 = q1 ∧
  (∀ t, ∃ h'', queue_put q1 t h' = Some h'' ∧ queue_get q2 h'' = Some (t, h')) ∧
  (∀ q, maxsize q = 5%Z → queue_full q = true ↔ (5 ≤ length (items q))%nat).
Proof.
  intros Hq1 Hq2. simpl. unfold __init__. rewrite Hq1, Hq2. simpl.
  split; [apply (not_elem_of_dom (D:=gset nat)); apply is_fresh|].
  split; [apply lookup_insert_eq|]. split; [done|]. split; [done|]. split.
  - intros t. unfold queue_put, queue_get. rewrite lookup_insert_eq. simpl.
    eexists. split; [reflexivity|]. rewrite lookup_insert_eq. simpl.
    by rewrite !insert_insert_eq.
  - intros q Hq. unfold queue_full. rewrite Hq. simpl.
    rewrite Z.leb_le. lia.
Qed.

End SessionProps.

(** ** The evaluation entry point *)

Module PerformProps.

Import Num Tensor Perform.
Local Open Scope Qc_scope.

Lemma reduce_sum_app (xs ys : list Qc) :
  reduce_sum (xs ++ ys) = reduce_sum xs + reduce_sum ys.
Proof.
  unfold reduce_sum. induction xs as [|x xs IH]; simpl.
  - by rewrite Qcplus_0_l.
  - rewrite IH. apply Qcplus_assoc.
Qed.

Lemma Qc_of_nat_0 : Qc_of_nat 0 = 0.
Proof. exact Z2Qc_inj_0. Qed.

Lemma Qc_of_nat_S (k : nat) : Qc_of_nat (S k) = Qc_of_nat k + 1.
Proof.
  unfold Qc_of_nat. rewrite Nat2Z.inj_succ, <- Z.add_1_r, Z2Qc_inj_add, Z2Qc_inj_1. done.
Qed.

Lemma Qc_of_nat_S_nonzero (k : nat) : Qc_of_nat (S k) ≠ 0.
Proof.
  unfold Qc_of_nat. rewrite <- Z2Qc_inj_0. intros Heq.
  apply Z2Qc_inj in Heq. lia.
Qed.

Lemma running_mean_step (k : nat) (total r : Qc) :
  (k = 0%nat → total = 0) →
  total / Qc_of_nat k + 1 / Qc_of_nat (k + 1) * (r - total / Qc_of_nat k)
  = (total + r) / Qc_of_nat (k + 1).
Proof.
  intros Hzero. rewrite Nat.add_1_r.
  pose proof (Qc_of_nat_S_nonzero k) as Hk1.
  destruct k as [|k].
  - rewrite Hzero by done. rewrite Qc_of_nat_0.
    replace (0 / 0) with 0 by (unfold Qcdiv; by rewrite Qcmult_0_l).
    field. done.
  - pose proof (Qc_of_nat_S_nonzero (S k)) as Hk2.
    rewrite (Qc_of_nat_S (S k)) in Hk2 |- *. field. split; done.
Qed.

Section WithRollout.
Context `{R : Rollout}.

Lemma while_not_done_spec (fuel : nat) (args : Args) (σ : A3C.store) (i : nat)
    (done : bool) (obs : A3C.Obs) (rewards : list Qc) (o : Outside) :
  (i < length rewards)%nat →
  match episode_rewards fuel args σ done obs o with
  | Some (rews, o') =>
      while_not_done fuel args σ i done obs rewards o
      = Returns (alter (λ r, r + reduce_sum rews) i rewards, o')
  | None => while_not_done fuel args σ i done obs rewards o = Timeout
  end.
Proof.
  revert done obs rewards o.
  induction fuel as [|fuel IH]; intros done obs rewards o Hi.
  - destruct done; simpl; [|done]. f_equal. f_equal. symmetry.
    apply list_alter_id. intros x. apply Qcplus_0_r.
  - destruct done; simpl.
    { f_equal. f_equal. symmetry. apply list_alter_id. intros x. apply Qcplus_0_r. }
    destruct (policy_act σ obs _) as [action o1].
    destruct (env_step action o1) as [[[obs' rew] done'] o2].
    unfold add_at. rewrite decide_True by done.
    specialize (IH done' obs' (alter (λ r, r + rew) i rewards) o2).
    rewrite length_alter in IH. specialize (IH Hi).
    destruct (episode_rewards fuel args σ done' obs' o2) as [[rews o3]|]; simpl.
    + rewrite IH. f_equal. f_equal. rewrite list_alter_alter_eq.
      apply list_alter_ext; [|done]. intros x _. simpl.
      unfold reduce_sum. simpl. by rewrite Qcplus_assoc.
    + done.
Qed.


Lemma mean_of_first_app (k : nat) (xs ys : list Qc) :
  (k ≤ length xs)%nat → mean_of_first k (xs ++ ys) = mean_of_first k xs.
Proof. intros Hk. unfold mean_of_first. by rewrite take_app_le. Qed.

Lemma for_episodes_spec (fuel : nat) (args : Args) (m : nat) :
  ∀ (k : nat) (st : State),
    length (rewards st) = (k + m)%nat →
    (∀ j, (k ≤ j)%nat → (j < k + m)%nat → rewards st !! j = Some 0) →
    mean_reward st = mean_of_first k (rewards st) →
    match episodes_rewards fuel args (vars st) m (outside st) with
    | Some (eps, o') =>
        ∃ st', for_episodes fuel args (seq k m) st = Returns st' ∧
          vars st' = vars st ∧ outside st' = o' ∧
          rewards st' = take k (rewards st) ++ (reduce_sum <$> eps) ∧
          mean_reward st' = mean_of_first (k + m) (rewards st') ∧
          output st' = output st ++ expected_log (rewards st') k m
    | None => for_episodes fuel args (seq k m) st = Timeout
    end.
Proof.
  induction m as [|m IH]; intros k st Hlen Hzero Hmean.
  - simpl. exists st. rewrite Nat.add_0_r in *.
    rewrite take_ge by lia. rewrite !app_nil_r. done.
  - simpl. destruct (env_reset (outside st)) as [obs o].
    pose proof (while_not_done_spec fuel args (vars st) k false obs (rewards st) o)
      as Hwhile.
    destruct (episode_rewards fuel args (vars st) false obs o) as [[rews o1]|];
      simpl; [|by rewrite Hwhile by lia].
    rewrite Hwhile by lia. clear Hwhile.
    set (rewards1 := alter (λ r, r + reduce_sum rews) k (rewards st)).
    assert (Hk : rewards1 !! k = Some (reduce_sum rews)).
    { unfold rewards1. rewrite list_lookup_alter_eq, (Hzero k) by lia.
      change (Some (0 + reduce_sum rews) = Some (reduce_sum rews)).
      by rewrite Qcplus_0_l. }
    rewrite Hk.
    assert (Htake : take (S k) rewards1 = take k (rewards st) ++ [reduce_sum rews]).
    { erewrite take_S_r by exact Hk. unfold rewards1.
      by rewrite take_alter_ge by lia. }
    set (mean1 := mean_reward st
                  + 1 / Qc_of_nat (k + 1) * (reduce_sum rews - mean_reward st)).
    assert (Hmean1 : mean1 = mean_of_first (S k) rewards1).
    { unfold mean1. rewrite Hmean. unfold mean_of_first at 1 2.
      rewrite running_mean_step.
      - unfold mean_of_first. rewrite Htake, reduce_sum_app, Nat.add_1_r.
        unfold reduce_sum at 3. simpl. by rewrite Qcplus_0_r.
      - intros ->. done. }
    set (st1 := {| vars := vars st; outside := o1; rewards := rewards1;
                   mean_reward := mean1;
                   output := output st ++ [LogEpisode (k + 1) (reduce_sum rews) mean1]
                |}).
    specialize (IH (S k) st1). simpl in IH.
    destruct (episodes_rewards fuel args (vars st) m o1) as [[eps o2]|]; simpl.
    + destruct IH as (st' & Hrun & Hvars & Hout & Hrewards & Hmean' & Hlog).
      * unfold rewards1. rewrite length_alter. lia.
      * intros j Hj1 Hj2. unfold rewards1.
        rewrite list_lookup_alter_ne by lia. apply Hzero; lia.
      * done.
      * exists st'. split; [exact Hrun|]. split; [done|]. split; [done|].
        rewrite Htake, <- app_assoc in Hrewards. simpl in Hrewards.
        split; [done|]. split; [by rewrite <- Nat.add_succ_comm|].
        rewrite Hlog, <- app_assoc. f_equal. unfold expected_log. simpl.
        f_equal. assert (Hlenk : length (take k (rewards st)) = k).
        { rewrite length_take. lia. }
        f_equal.
        -- rewrite Hrewards, lookup_app_r, Hlenk, Nat.sub_diag by lia. done.
        -- rewrite Hmean1, Nat.add_1_r, Hrewards. unfold mean_of_first.
           rewrite Htake.
           replace (take k (rewards st) ++ reduce_sum rews :: (reduce_sum <$> eps))
             with ((take k (rewards st) ++ [reduce_sum rews]) ++ (reduce_sum <$> eps))
             by (by rewrite <- app_assoc).
           rewrite take_app_length' by (rewrite length_app, Hlenk; simpl; lia).
           done.
    + apply IH.
      * unfold rewards1. rewrite length_alter. lia.
      * intros j Hj1 Hj2. unfold rewards1.
        rewrite list_lookup_alter_ne by lia. apply Hzero; lia.
      * done.
Qed.


Lemma episodes_rewards_length (fuel : nat) (args : Args) (σ : A3C.store) (n : nat)
    (o o' : Outside) (eps : list (list Qc)) :
  episodes_rewards fuel args σ n o = Some (eps, o') → length eps = n.
Proof.
  revert o o' eps. induction n as [|n IH]; intros o o' eps; simpl.
  - by intros [= <- _].
  - destruct (env_reset o) as [obs o1].
    destruct (episode_rewards _ _ _ _ _ _) as [[rews o2]|]; [|done]. simpl.
    destruct (episodes_rewards fuel args σ n o2) as [[rest o3]|] eqn:Hrest; [|done].
    simpl. intros [= <- _]. simpl. f_equal. eapply IH. exact Hrest.
Qed.


End WithRollout.

End PerformProps.

(** ** Further properties of the synchronisation ops *)

Module SyncFrame.

Import Num Tensor A3C SyncProps.

Lemma run_ops_assigns_inv (ops : list Op) (σ σ' : store) :
  NoDup (op_target <$> ops) →
  (∀ o o', o ∈ ops → o' ∈ ops → op_source o ≠ op_target o') →
  run_ops ops σ = Some σ' →
  (∀ o, o ∈ ops → σ' !! op_target o = σ !! op_source o) ∧
  (∀ o, o ∈ ops → is_Some (σ !! op_source o)) ∧
  (∀ v, v ∉ op_target <$> ops → σ' !! v = σ !! v).
Proof.
  revert σ. induction ops as [|[a b] ops IH]; intros σ Hnd Hsep Hrun.
  - injection Hrun as <-. split; [|split]; [| |done];
      intros o Ho; by apply elem_of_nil in Ho.
  - rewrite fmap_cons in Hnd. apply list.NoDup_cons in Hnd as [Ha Hnd].
    simpl in Hrun. destruct (σ !! b) as [x|] eqn:Hx; [|done]. simpl in Hrun.
    destruct (IH (<[a:=x]> σ)) as (Hcopy & Hinit & Hkeep); [done| |done|].
    { intros o o' Ho Ho'. apply Hsep; by right. }
    assert (Hne : ∀ o, o ∈ ops → a ≠ op_source o).
    { intros o Ho Heq. eapply (Hsep o (Assign a b)); [by right|left|done]. }
    split; [|split].
    + intros o Ho. apply elem_of_cons in Ho as [->|Ho]; simpl.
      * rewrite Hkeep by done. rewrite lookup_insert_eq. done.
      * rewrite Hcopy by done. apply lookup_insert_ne. by apply Hne.
    + intros o Ho. apply elem_of_cons in Ho as [->|Ho]; simpl; [by rewrite Hx|].
      specialize (Hinit o Ho). rewrite lookup_insert_ne in Hinit; [done|by apply Hne].
    + intros v Hv. rewrite fmap_cons in Hv. apply not_elem_of_cons in Hv as [Hv1 Hv].
      rewrite Hkeep by done. by apply lookup_insert_ne.
Qed.

Lemma sync_group_inv (lp gp : Policy) (σ σ' : store) :
  NoDup (var_list lp) →
  (∀ v, v ∈ var_list lp → v ∉ var_list gp) →
  run_group (zip_with Assign (var_list lp) (var_list gp)) σ σ' →
  (∀ i v1 v2, var_list lp !! i = Some v1 → var_list gp !! i = Some v2 →
     σ' !! v1 = σ !! v2) ∧
  (∀ v, v ∉ take (length (var_list gp)) (var_list lp) → σ' !! v = σ !! v).
Proof.
  intros Hnd Hdisj (order & Hperm & Hrun).
  apply run_ops_assigns_inv in Hrun as (Hcopy & _ & Hkeep).
  - split.
    + intros i v1 v2 H1 H2.
      apply (Hcopy (Assign v1 v2)). rewrite Hperm. apply list_elem_of_lookup.
      exists i. apply lookup_zip_with_Some. eauto.
    + intros v Hv. apply Hkeep. by rewrite Hperm, targets_zip_assign.
  - rewrite Hperm, targets_zip_assign. eapply sublist_NoDup; [exact Hnd|apply sublist_take].
  - intros o o' Ho Ho'. rewrite Hperm in Ho, Ho'.
    apply elem_of_zip_assign in Ho as [_ Ho], Ho' as [Ho' _].
    intros Heq. apply (Hdisj (op_target o')); [done|by rewrite <- Heq].
Qed.

(** X1.  The synchronisation group pairs local and global variables
    position by position and stops at the shorter list.  A run of the group
    therefore leaves alone every local variable whose position lies beyond
    the last global variable, and every variable that is not a local
    variable at all. *)
Theorem sync_leaves_surplus_untouched (defaults : InitDefaults) (args : InitArgs)
    (lp : Policy) (ops : list Op) (σ σ' : store) :
  arg_local_policy args = Some lp →
  NoDup (var_list lp) →
  (∀ v, v ∈ var_list lp → v ∉ var_list (arg_global_policy args)) →
  sync_ops (__init__ defaults args) = Some ops →
  run_group ops σ σ' →
  (∀ i v, (length (var_list (arg_global_policy args)) ≤ i)%nat →
     var_list lp !! i = Some v → σ' !! v = σ !! v) ∧
  (∀ v, v ∉ var_list lp → σ' !! v = σ !! v).
Proof.
  intros Hlp Hnd Hdisj Hops Hrun.
  unfold __init__ in Hops. simpl in Hops. rewrite Hlp in Hops.
  injection Hops as <-.
  destruct (sync_group_inv lp _ σ σ' Hnd Hdisj Hrun) as [_ Hkeep]. split.
  - intros i v Hi Hv. apply Hkeep. intros Hin.
    apply elem_of_take in Hin as (j & Hj & Hlt).
    assert (i = j) by (eapply NoDup_lookup; eauto). lia.
  - intros v Hv. apply Hkeep. intros Hin. apply Hv.
    apply elem_of_take in Hin as (j & Hj & _). eapply list_elem_of_lookup_2; eauto.
Qed.

(** X2.  Synchronising is idempotent: a second run of the group, with no
    update of the global variables in between, changes nothing. *)
Theorem sync_twice_is_sync_once (defaults : InitDefaults) (args : InitArgs)
    (lp : Policy) (ops : list Op) (σ σ1 σ2 : store) :
  arg_local_policy args = Some lp →
  NoDup (var_list lp) →
  (∀ v, v ∈ var_list lp → v ∉ var_list (arg_global_policy args)) →
  sync_ops (__init__ defaults args) = Some ops →
  run_group ops σ σ1 →
  run_group ops σ1 σ2 →
  σ2 = σ1.
Proof.
  intros Hlp Hnd Hdisj Hops Hrun1 Hrun2.
  unfold __init__ in Hops. simpl in Hops. rewrite Hlp in Hops.
  injection Hops as <-.
  set (gp := arg_global_policy args) in *.
  destruct (sync_group_inv lp gp σ σ1 Hnd Hdisj Hrun1) as [Hcopy1 Hkeep1].
  destruct (sync_group_inv lp gp σ1 σ2 Hnd Hdisj Hrun2) as [Hcopy2 Hkeep2].
  apply map_eq. intros v.
  destruct (decide (v ∈ take (length (var_list gp)) (var_list lp))) as [Hin|Hout].
  - apply elem_of_take in Hin as (i & Hi & Hlt).
    destruct (lookup_lt_is_Some_2 (var_list gp) i Hlt) as [v2 Hv2].
    rewrite (Hcopy2 i v v2 Hi Hv2), (Hcopy1 i v v2 Hi Hv2).
    apply Hkeep1. intros Hin. apply elem_of_take in Hin as (j & Hj & _).
    apply (Hdisj v2); eapply list_elem_of_lookup_2; eauto.
  - by apply Hkeep2.
Qed.

End SyncFrame.

(** ** Further properties of the loss *)

Module LossSign.

Import Num Tensor A3C LossProps.
Local Open Scope Qc_scope.





Section Loss.
Context `{C : Collab}.


End Loss.

End LossSign.

(** ** Further properties of feeding, training and sessions *)

Module TrainProps.

Import Num Tensor A3C SyncProps SessionProps SyncFrame.
Local Open Scope Qc_scope.

Section WithCollab.
Context `{C : Collab}.

Tactic Notation "case_bind" "at" constr(w) "as" simple_intropattern(pat) :=
  match goal with
  | |- context [(?m ≫= ?k) w] => destruct (bind_cases m k w) as pat
  end.

(** *** One iteration *)

Lemma producer_next_inv (tp : TrajectoryProducer) (w w1 : World) (t : Trajectory) :
  producer_next tp w = Ok t w1 →
  vars w1 = vars w ∧ global_step w1 = global_step w ∧ hooks w1 = hooks w ∧
  stop_requested w1 = stop_requested w ∧ trace w1 = trace w ++ [EvNext t].
Proof.
  unfold producer_next. destruct (producer_fill _ _ _) as [up h].
  destruct (queue_get _ h) as [[t' h']|]; [|done]. by intros [= <- <-].
Qed.

(** X4.  Once the producer has handed over a trajectory, [_get_feed_dict]
    either returns or raises.  When it returns, [state_in] is fed exactly
    for a recurrent policy, and holds the first recorded policy state.  It
    raises only for a recurrent policy whose trajectory records no policy
    state; by then the trajectory has left the queue and its advantages
    have been computed. *)
Theorem feed_state_needs_policy_state (alg : Algorithm) (gamma lambda_ : Qc)
    (w w1 : World) (t : Trajectory) :
  producer_next (trajectory_producer alg) w = Ok t w1 →
  match _get_feed_dict alg gamma lambda_ w with
  | Ok fd w' =>
      fd_state_in fd
      = (if recurrent (local_policy alg) then head (policy_states t) else None) ∧
      (recurrent (local_policy alg) = true → is_Some (fd_state_in fd))
  | Raises w' =>
      recurrent (local_policy alg) = true ∧ policy_states t = [] ∧
      queues w' = queues w1 ∧ upcoming w' = upcoming w1 ∧
      trace w' = trace w ++ [EvNext t; EvGae t]
  | _ => False
  end.
Proof.
  intros Hnext. unfold _get_feed_dict.
  rewrite (bind_Ok _ _ _ _ _ Hnext).
  apply producer_next_inv in Hnext as (_ & _ & _ & _ & Ht1).
  unfold call_gae at 1. unfold mbind at 1, M_bind at 1, bind at 1.
  destruct (gae _ _ _ _ _) as [advantages value_targets].
  destruct (recurrent (local_policy alg)).
  - destruct (policy_states t) as [|state rest]; simpl.
    + rewrite Ht1, <- app_assoc. done.
    + split; [done|]. by eauto.
  - simpl. split; [done|]. intros Hrec. discriminate Hrec.
Qed.

(** X5.  With a distinct local policy and an optimizer that writes to the
    global variables only (the gradients are paired with
    [global_policy.var_list()]), a completed iteration leaves in every
    local variable the value its global partner had when the iteration
    began: the local copy lags one update behind. *)
Theorem local_holds_global_before_update (defaults : InitDefaults) (args : InitArgs)
    (lp : Policy) (summary_period : Z) (gamma lambda_ : Qc)
    (step last step' last' : Z) (w w' : World) :
  arg_local_policy args = Some lp →
  NoDup (var_list lp) →
  (∀ v, v ∈ var_list lp → v ∉ var_list (arg_global_policy args)) →
  (∀ σ fd v, v ∉ var_list (arg_global_policy args) →
     apply_gradients lp (arg_global_policy args) σ fd !! v = σ !! v) →
  train_body (__init__ defaults args) summary_period gamma lambda_ step last w
  = Ok (step', last') w' →
  ∀ i v1 v2,
    var_list lp !! i = Some v1 →
    var_list (arg_global_policy args) !! i = Some v2 →
    vars w' !! v1 = vars w !! v2.
Proof.
  intros Hlp Hnd Hdisj Hframe Hrun i v1 v2 H1 H2.
  apply train_body_spec in Hrun as (it & _ & _ & σ & fd & l & Hσ & _ & _ & _ & _ & _
                                      & _ & _ & Hvars & _).
  rewrite Hvars. unfold __init__, synced_vars in *. simpl in *.
  rewrite Hlp in *. simpl in *.
  rewrite Hframe by (apply Hdisj; eapply list_elem_of_lookup_2; eauto).
  destruct (sync_group_inv lp (arg_global_policy args) (vars w) σ Hnd Hdisj)
    as [Hcopy _]; [|by eauto].
  eexists. split; [reflexivity|done].
Qed.

(** X6.  A completed iteration pulls exactly one trajectory, applies
    exactly one update, and moves the global step (in [int64] arithmetic)
    by the number of observations it has fed: the recorded length of the
    trajectory, or the number of observations it holds when that is
    smaller, since the slice stops at the end of the array. *)
Theorem step_advances_by_fed_batch (alg : Algorithm) (summary_period : Z)
    (gamma lambda_ : Qc) (step last step' last' : Z) (w w' : World) :
  train_body alg summary_period gamma lambda_ step last w = Ok (step', last') w' →
  ∃ t, pulled (drop (length (trace w)) (trace w')) = [t] ∧
    step' = add64 (global_step w)
              (Z.of_nat (num_timesteps t `min` length (observations t))) ∧
    global_step w' = step' ∧
    count_updates (drop (length (trace w)) (trace w')) = 1%nat.
Proof.
  intros Hrun.
  apply train_body_spec in Hrun as (it & _ & _ & σ & fd & l & _ & Hin & _ & _ & _ & _
                                      & _ & _ & _ & Hstep & _ & Htrace & -> & _).
  exists (it_trajectory it). rewrite Htrace, drop_app_length.
  rewrite Hstep, Hin, length_take.
  split; [|split; [done|split; [done|]]].
  - unfold body_events, update_events.
    destruct (bool_decide _), (summary_due _ _ _); done.
  - pose proof (count_updates_iteration (bool_decide (is_Some (sync_ops alg)))
                  summary_period it) as Hc.
    unfold iteration_events in Hc. exact Hc.
Qed.

(** *** The loop *)


Lemma read_global_step_stop (alg : Algorithm) (w w' : World) (step : Z) :
  read_global_step alg w = Ok step w' →
  stop_requested w' = stop_requested w || request_stop (hooks w) (global_step w).
Proof.
  unfold read_global_step. intros Hrun.
  apply bind_Ok_inv in Hrun as (values & w1 & Hrun & Hret).
  apply sess_run_inv in Hrun as (w2 & Hvalues & Heffects & ->).
  simpl in Hvalues, Heffects. injection Hvalues as <-. injection Heffects as <-.
  by injection Hret as <- <-.
Qed.

Lemma train_body_stop (alg : Algorithm) (p : Z) (gamma lambda_ : Qc)
    (step last step' last' : Z) (w w' : World) :
  train_body alg p gamma lambda_ step last w = Ok (step', last') w' →
  request_stop (hooks w) step' = true → stop_requested w' = true.
Proof.
  unfold train_body. intros Hrun Hstop.
  apply bind_Ok_inv in Hrun as ([] & w1 & Hsync & Hrun).
  apply sync_step_inv in Hsync as (σ & _ & _ & _ & Hhooks1 & _).
  apply bind_Ok_inv in Hrun as (fd & w2 & Hfeed & Hrun).
  apply _get_feed_dict_inv in Hfeed as (t & _ & _ & _ & _ & _ & Hhooks2 & _).
  apply bind_Ok_inv in Hrun as (last2 & w3 & Hupdate & Hrun).
  apply bind_Ok_inv in Hrun as (step2 & w4 & Hread & Hret).
  injection Hret as -> -> ->.
  assert (Hhooks3 : hooks w3 = hooks w2).
  { destruct (summary_due step last p).
    - apply bind_Ok_inv in Hupdate as (values & w5 & Hrun & Hlog).
      apply summary_run_inv in Hrun as (l & _ & -> & _ & _ & Hh & _).
      simpl in Hlog. by injection Hlog as <- <-.
    - apply bind_Ok_inv in Hupdate as (values & w5 & Hrun & Hret).
      injection Hret as <- <-.
      by apply train_op_run_inv in Hrun as (l & _ & _ & _ & Hh & _). }
  rewrite (read_global_step_stop _ _ _ _ Hread).
  apply read_global_step_inv in Hread as (-> & _).
  rewrite Hhooks3, Hhooks2, Hhooks1, Hstop. apply orb_true_r.
Qed.

Lemma producer_next_failed_frame (tp : TrajectoryProducer) (w : World) :
  is_Ok (producer_next tp w) = false →
  global_step (final (producer_next tp w)) = global_step w ∧
  hooks (final (producer_next tp w)) = hooks w.
Proof.
  unfold producer_next. destruct (producer_fill _ _ _) as [up h].
  destruct (queue_get _ h) as [[t h']|]; done.
Qed.

Lemma _get_feed_dict_failed_frame (alg : Algorithm) (gamma lambda_ : Qc) (w : World) :
  let r := _get_feed_dict alg gamma lambda_ w in
  is_Ok r = false →
  global_step (final r) = global_step w ∧ hooks (final r) = hooks w ∧
  ∃ events, trace (final r) = trace w ++ events ∧
    (events = [] ∨ ∃ t, events = [EvNext t; EvGae t]).
Proof.
  simpl. unfold _get_feed_dict.
  case_bind at w as [(Hfail & _ & ->)|(t & w1 & Hnext & ->)].
  { intros _. destruct (producer_next_failed_frame _ _ Hfail) as [-> ->].
    split; [done|]. split; [done|]. exists []. rewrite app_nil_r.
    split; [by apply producer_next_failed|by left]. }
  assert (Ht1 : trace w1 = trace w ++ [EvNext t] ∧ global_step w1 = global_step w
                ∧ hooks w1 = hooks w).
  { unfold producer_next in Hnext. destruct (producer_fill _ _ _) as [up h].
    destruct (queue_get _ h) as [[t' h']|]; [|done]. by injection Hnext as <- <-. }
  destruct Ht1 as (Ht1 & Hs1 & Hh1).
  unfold mbind, M_bind, bind, call_gae.
  destruct (gae _ _ _ _ _) as [advantages value_targets].
  destruct (recurrent _); [destruct (policy_states t)|]; try done.
  intros _. simpl. split; [done|]. split; [done|].
  exists [EvNext t; EvGae t]. rewrite Ht1, <- app_assoc. split; [done|]. eauto.
Qed.

Lemma train_body_failed_frame (alg : Algorithm) (p : Z) (gamma lambda_ : Qc)
    (step last : Z) (w : World) :
  let r := train_body alg p gamma lambda_ step last w in
  is_Ok r = false →
  global_step (final r) = global_step w ∧ hooks (final r) = hooks w ∧
  ∃ events, trace (final r) = trace w ++ events ∧
    forallb preparatory events = true ∧
    (sync_ops alg = None → forallb (λ e, negb (is_sync_run e)) events = true).
Proof.
  simpl. unfold train_body.
  case_bind at w as [(Hfail & _ & ->)|([] & w1 & Hsync & ->)].
  { intros _. rewrite (sync_step_failed alg w Hfail).
    split; [done|]. split; [done|]. exists []. by rewrite app_nil_r. }
  apply sync_step_inv in Hsync as (σ & _ & _ & Hs1 & Hh1 & _ & _ & Ht1).
  assert (Hq1 : ∃ ev1, trace w1 = trace w ++ ev1 ∧ forallb preparatory ev1 = true ∧
            (sync_ops alg = None → ev1 = [])).
  { eexists. split; [exact Ht1|]. split; [by destruct (bool_decide _)|].
    intros ->. rewrite bool_decide_false; [done|]. by intros [? ?]. }
  destruct Hq1 as (ev1 & Hev1 & Hprep1 & Hnone1). clear Ht1.
  case_bind at w1 as [(Hfail & _ & ->)|(fd & w2 & Hfeed & ->)].
  { intros _. destruct (_get_feed_dict_failed_frame alg gamma lambda_ w1 Hfail)
      as (-> & -> & ev2 & Hev2 & Hshape).
    split; [done|]. split; [done|].
    exists (ev1 ++ ev2). rewrite Hev2, Hev1, <- app_assoc.
    split; [done|]. split.
    - rewrite forallb_app, Hprep1. by destruct Hshape as [->|[t ->]].
    - intros Hnone. rewrite (Hnone1 Hnone). by destruct Hshape as [->|[t ->]]. }
  apply _get_feed_dict_inv in Hfeed as (t & _ & _ & _ & _ & Hs2 & Hh2 & Ht2).
  case_bind at w2 as [(Hfail & _ & ->)|(last2 & w3 & Hupd & ->)].
  { intros _. rewrite (update_step_failed alg p step last fd w2 Hfail).
    split; [congruence|]. split; [congruence|].
    exists (ev1 ++ [EvNext t; EvGae t]). rewrite Ht2, Hev1, <- app_assoc.
    split; [done|]. split.
    - rewrite forallb_app, Hprep1. done.
    - intros Hnone. by rewrite (Hnone1 Hnone). }
  destruct (read_global_step_Ok alg w3) as [w4 Hread].
  rewrite (bind_Ok _ _ _ _ _ Hread). done.
Qed.

Lemma end_step_cons (step : Z) (it : Iteration) (its : list Iteration) :
  end_step step (it :: its)
  = end_step (add64 step (batch_size (it_trajectory it))) its.
Proof. done. Qed.

Lemma train_loop_chain (fuel : nat) (alg : Algorithm) (num_steps p : Z)
    (gamma lambda_ : Qc) (last : Z) (w : World) :
  let r := train_loop fuel alg num_steps p gamma lambda_ (global_step w) last w in
  ∃ its tail,
    trace (final r) = trace w
      ++ concat (iteration_events (bool_decide (is_Some (sync_ops alg))) p <$> its)
      ++ tail ∧
    interrupted tail ∧
    (sync_ops alg = None → forallb (λ e, negb (is_sync_run e)) tail = true) ∧
    chained p (global_step w) last its ∧
    Forall (λ it, (it_step it < num_steps)%Z) its ∧
    global_step (final r) = end_step (global_step w) its ∧
    hooks (final r) = hooks w ∧
    Forall (λ it, request_stop (hooks w) (it_step it) = false) (drop 1 its) ∧
    (its ≠ [] → stop_requested w = false) ∧
    (∀ w', r = Ok tt w' →
       tail = [EvShouldStop (stop_requested w')] ∧
       (stop_requested w' = true ∨ (num_steps ≤ end_step (global_step w) its)%Z)).
Proof.
  revert last w. induction fuel as [|fuel IH]; intros last w.
  { exists [], []. simpl. rewrite app_nil_r.
    split; [done|]. split; [by left|]. split; [done|]. split; [done|].
    split; [constructor|].
    split; [done|]. split; [done|]. split; [constructor|]. split; done. }
  rewrite train_loop_S.
  destruct (negb (stop_requested w) && (global_step w <? num_steps)%Z) eqn:Hguard.
  - apply andb_prop in Hguard as [Hstop Hlt].
    apply negb_true_iff in Hstop. apply Z.ltb_lt in Hlt. rewrite Hstop.
    set (w0 := add_event (EvShouldStop false) w).
    case_bind at w0
      as [(Hfail & Hfail' & Hfinal)|([step' last'] & w1 & Hbody & Hbind)].
    + destruct (train_body_failed_frame alg p gamma lambda_ (global_step w) last
                  w0 Hfail) as (Hs & Hh & events & Hevents & Hprep & Hnone).
      exists [], (EvShouldStop false :: events). cbv zeta.
      rewrite Hfinal, Hevents, Hs, Hh. simpl. rewrite <- app_assoc.
      split; [done|]. split; [right; eauto|]. split; [done|]. split; [done|].
      split; [constructor|].
      split; [done|]. split; [done|]. split; [constructor|]. split; [done|].
      intros w' Heq. rewrite Heq in Hfail'. done.
    + rewrite Hbind.
      pose proof (train_body_stop _ _ _ _ _ _ _ _ _ _ Hbody) as Hstopped.
      apply train_body_spec in Hbody as (it & Hstep & Hlast & Hpost).
      destruct Hpost as (σ & fd & l & _ & Hin & _ & _ & _ & _ & _ & _ & _ & Hgs & Hh
                         & Ht & Hstep' & Hlast').
      subst step'. simpl in Hgs, Hh, Hstopped.
      destruct (IH last' w1)
        as (its & tail & Htrace & Htail & Hnosync & Hchain & Hall & Hend & Hhooks
            & Hreq & Hgo & Hok).
      assert (Hnext : global_step w1
                      = add64 (global_step w) (batch_size (it_trajectory it))).
      { rewrite Hgs, Hin. done. }
      exists (it :: its), tail. cbv zeta. rewrite Htrace, Ht. simpl trace.
      rewrite fmap_cons, concat_cons. unfold iteration_events at 2.
      rewrite <- !app_assoc. simpl app.
      split; [done|]. split; [done|]. split; [done|].
      split. { simpl. rewrite <- Hnext, <- Hlast, <- Hstep at 1. rewrite Hstep, Hlast.
               rewrite Hlast', Hstep, Hlast in Hchain. done. }
      split; [constructor; [lia|done]|].
      split; [by rewrite end_step_cons, <- Hnext|].
      split; [congruence|].
      split.
      { simpl. rewrite Hh in Hreq.
        destruct its as [|it' its']; [constructor|]. constructor; [|done].
        destruct Hchain as (Hstep2 & _). rewrite Hstep2.
        destruct (request_stop (hooks w) (global_step w1)) eqn:Hrs; [|done].
        rewrite Hstopped in Hgo by done. by discriminate Hgo. }
      split; [done|].
      intros w' Heq. destruct (Hok w' Heq) as (Htail' & Hexit).
      split; [done|]. by rewrite end_step_cons, <- Hnext.
  - exists [], [EvShouldStop (stop_requested w)]. simpl.
    split; [done|]. split; [right; by exists (stop_requested w), []|].
    split; [done|].
    split; [done|]. split; [constructor|]. split; [done|]. split; [done|].
    split; [constructor|]. split; [done|].
    intros w' [= <-]. simpl. split; [done|].
    apply andb_false_iff in Hguard as [Hguard|Hguard].
    + left. by apply negb_false_iff.
    + right. by apply Z.ltb_ge.
Qed.


(** *** Consequences for lists of iterations *)

Lemma total_timesteps_app (ts us : list Trajectory) :
  total_timesteps (ts ++ us) = (total_timesteps ts + total_timesteps us)%Z.
Proof. induction ts as [|t ts IH]; simpl; lia. Qed.

Lemma batch_size_well_formed (t : Trajectory) :
  well_formed t → batch_size t = Z.of_nat (num_timesteps t).
Proof.
  unfold well_formed, batch_size. intros Hwf. by rewrite length_take, Nat.min_l.
Qed.

Lemma chained_app (p step last : Z) (its its' : list Iteration) :
  chained p step last (its ++ its') →
  chained p step last its ∧
  ∃ last', chained p (end_step step its) last' its'.
Proof.
  revert step last. induction its as [|it its IH]; intros step last Hchain.
  - split; [done|]. by exists last.
  - destruct Hchain as (Hstep & Hlast & Hchain).
    apply IH in Hchain as [Hchain Hrest]. split; [done|]. exact Hrest.
Qed.

Lemma chained_end_step (p step last : Z) (its : list Iteration) :
  chained p step last its →
  Forall well_formed (it_trajectory <$> its) →
  in_int64 step →
  (step + total_timesteps (it_trajectory <$> its) ≤ int64_max)%Z →
  end_step step its = (step + total_timesteps (it_trajectory <$> its))%Z.
Proof.
  revert step last. induction its as [|it its IH]; intros step last Hchain Hwf Hin Hmax.
  - simpl. lia.
  - destruct Hchain as (_ & _ & Hchain).
    rewrite fmap_cons in Hwf, Hmax |- *. apply list.Forall_cons in Hwf as [Hwf Hwfs].
    simpl in Hmax. pose proof (total_timesteps_nonneg (it_trajectory <$> its)).
    rewrite end_step_cons. rewrite batch_size_well_formed in Hchain |- * by done.
    assert (Hadd : add64 step (Z.of_nat (num_timesteps (it_trajectory it)))
                   = (step + Z.of_nat (num_timesteps (it_trajectory it)))%Z).
    { apply wrap64_in_range. unfold in_int64, int64_min, int64_max in *. lia. }
    rewrite Hadd in Hchain |- *. rewrite (IH _ _ Hchain); [simpl; lia|done|..].
    + unfold in_int64, int64_min, int64_max in *. lia.
    + lia.
Qed.

Lemma chained_length_bound (p step last num_steps : Z) (its : list Iteration) :
  chained p step last its →
  Forall (λ it, (it_step it < num_steps)%Z) its →
  Forall (λ t, well_formed t ∧ (0 < num_timesteps t)%nat) (it_trajectory <$> its) →
  in_int64 step →
  (step + total_timesteps (it_trajectory <$> its) ≤ int64_max)%Z →
  (Z.of_nat (length its) ≤ Z.max 0 (num_steps - step))%Z.
Proof.
  revert step last. induction its as [|it its IH];
    intros step last Hchain Hlt Hwf Hin Hmax; [simpl; lia|].
  destruct Hchain as (Hstep & _ & Hchain).
  apply list.Forall_cons in Hlt as [Hlt Hlts].
  rewrite fmap_cons in Hwf, Hmax. apply list.Forall_cons in Hwf as [[Hwf Hpos] Hwfs].
  simpl in Hmax. pose proof (total_timesteps_nonneg (it_trajectory <$> its)).
  rewrite batch_size_well_formed in Hchain by done.
  assert (Hadd : add64 step (Z.of_nat (num_timesteps (it_trajectory it)))
                 = (step + Z.of_nat (num_timesteps (it_trajectory it)))%Z).
  { apply wrap64_in_range. unfold in_int64, int64_min, int64_max in *. lia. }
  rewrite Hadd in Hchain.
  specialize (IH _ _ Hchain Hlts Hwfs).
  simpl length. rewrite Hstep in Hlt.
  assert ((Z.of_nat (length its)
           ≤ Z.max 0 (num_steps - (step + Z.of_nat (num_timesteps (it_trajectory it)))))%Z).
  { apply IH; [unfold in_int64, int64_min, int64_max in *; lia|lia]. }
  lia.
Qed.




Lemma count_updates_cons (e : Event) (l : list Event) :
  count_updates (e :: l)
  = ((if applies_update e then 1 else 0) + count_updates l)%nat.
Proof.
  unfold count_updates. rewrite filter_cons.
  destruct (decide _) as [->|Hne]; [done|]. by destruct (applies_update e).
Qed.

Lemma interrupted_shows (tail : list Event) :
  interrupted tail →
  count_updates tail = 0%nat ∧ summary_steps tail = [] ∧
  Forall (λ e, preparatory e = true ∨ ∃ b, e = EvShouldStop b) tail.
Proof.
  intros [->|(b & rest & -> & Hprep)]; [by repeat split|].
  assert (Hall : Forall (λ e, preparatory e = true) rest).
  { induction rest as [|e rest IH]; [constructor|].
    simpl in Hprep. apply andb_prop in Hprep as [He Hprep].
    constructor; [done|by apply IH]. }
  clear Hprep. split; [|split].
  - rewrite count_updates_cons. simpl.
    induction Hall as [|e rest He Hall IH]; [done|].
    rewrite count_updates_cons, IH.
    destruct e as [| | | | | | | | | |[|[] []]|]; done.
  - unfold summary_steps. simpl.
    induction Hall as [|e rest He Hall IH]; [done|].
    destruct e as [| | | | | | | | | |[|[] []]|]; done.
  - constructor; [right; eauto|]. eapply list.Forall_impl; [exact Hall|].
    intros e He. by left.
Qed.

Lemma no_sync_iterations (p : Z) (its : list Iteration) :
  forallb (λ e, negb (is_sync_run e))
    (concat (iteration_events false p <$> its)) = true.
Proof.
  induction its as [|it its IH]; [done|].
  rewrite fmap_cons, concat_cons, forallb_app, IH.
  unfold iteration_events, body_events, update_events.
  by destruct (summary_due _ _ _).
Qed.


(** X7.  However the loop ends, if every trajectory it pulled is well
    formed and holds at least one timestep (and the counter stays within
    [int64]), it has applied at most [num_steps - step] updates, and none
    when the initial step is already at the budget. *)
Theorem updates_bounded_by_budget (fuel : nat) (alg : Algorithm)
    (num_steps p : Z) (gamma lambda_ : Qc) (last : Z) (w : World) :
  let r := train_loop fuel alg num_steps p gamma lambda_ (global_step w) last w in
  let events := drop (length (trace w)) (trace (final r)) in
  Forall (λ t, well_formed t ∧ (0 < num_timesteps t)%nat) (pulled events) →
  in_int64 (global_step w) →
  (global_step w + total_timesteps (pulled events) ≤ int64_max)%Z →
  (Z.of_nat (count_updates events) ≤ Z.max 0 (num_steps - global_step w))%Z.
Proof.
  intros r events.
  destruct (train_loop_chain fuel alg num_steps p gamma lambda_ last w)
    as (its & tail & Htrace & Htail & _ & Hchain & Hlt & _).
  fold r in Htrace.
  assert (Hevents : events
    = concat (iteration_events (bool_decide (is_Some (sync_ops alg))) p <$> its)
      ++ tail).
  { unfold events. rewrite Htrace. apply drop_app_length. }
  rewrite Hevents, pulled_app, pulled_iterations, count_updates_app,
    count_updates_iterations, total_timesteps_app.
  destruct (interrupted_shows tail Htail) as (-> & _ & _).
  intros Hwf Hin Hmax. apply Forall_app in Hwf as [Hwf _].
  pose proof (total_timesteps_nonneg (pulled tail)).
  rewrite Nat.add_0_r. eapply chained_length_bound; eauto. lia.
Qed.

(** X8.  When the loop ends normally after pulling well-formed
    trajectories, the global step exceeds the budget [num_steps] by less
    than the length of the last trajectory; and unless a stop was
    requested, the budget has been reached. *)
Theorem budget_overshoot_below_last_trajectory (fuel : nat) (alg : Algorithm)
    (num_steps p : Z) (gamma lambda_ : Qc) (last : Z) (w w' : World)
    (ts : list Trajectory) (t : Trajectory) :
  train_loop fuel alg num_steps p gamma lambda_ (global_step w) last w = Ok tt w' →
  pulled (drop (length (trace w)) (trace w')) = ts ++ [t] →
  Forall well_formed (ts ++ [t]) →
  in_int64 (global_step w) →
  (global_step w + total_timesteps (ts ++ [t]) ≤ int64_max)%Z →
  (global_step w' < num_steps + Z.of_nat (num_timesteps t))%Z ∧
  (stop_requested w' = false → (num_steps ≤ global_step w')%Z).
Proof.
  intros Hrun.
  destruct (train_loop_chain fuel alg num_steps p gamma lambda_ last w)
    as (its & tail & Htrace & _ & _ & Hchain & Hlt & Hend & _ & _ & _ & Hok).
  rewrite Hrun in Htrace, Hend, Hok. simpl in Htrace, Hend.
  destruct (Hok w' eq_refl) as [-> Hexit].
  rewrite Htrace, drop_app_length, pulled_app, pulled_iterations, app_nil_r.
  intros Hpulled Hwf Hin Hmax. rewrite <- Hpulled in Hwf, Hmax.
  pose proof (chained_end_step _ _ _ _ Hchain Hwf Hin Hmax) as Htotal.
  destruct (fmap_app_inv _ _ _ _ Hpulled) as (its0 & its1 & Hts & Ht & ->).
  destruct its1 as [|it [|? ?]]; try done. injection Ht as ->.
  apply chained_app in Hchain as [Hchain0 [last' (Hstep & _)]].
  rewrite fmap_app in Hwf, Hmax, Htotal. rewrite total_timesteps_app in Hmax, Htotal.
  apply Forall_app in Hwf as [Hwf0 Hwf1].
  simpl in Hmax, Htotal.
  pose proof (total_timesteps_nonneg (it_trajectory <$> its0)).
  rewrite (chained_end_step _ _ _ _ Hchain0 Hwf0 Hin) in Hstep by lia.
  apply Forall_app in Hlt as [_ Hlt]. apply list.Forall_cons in Hlt as [Hlt _].
  rewrite Hend, Htotal. split; [lia|].
  intros Hstop. destruct Hexit as [Hexit|Hexit]; [congruence|]. lia.
Qed.



(** X11.  An instance built without a local policy acts and trains with
    the global policy, and its training loop never runs the
    synchronisation ops. *)
Theorem no_sync_without_local_policy (fuel : nat) (defaults : InitDefaults)
    (args : InitArgs) (num_steps p : Z) (gamma lambda_ : Qc) (last : Z) (w : World) :
  arg_local_policy args = None →
  let alg := __init__ defaults args in
  let r := train_loop fuel alg num_steps p gamma lambda_ (global_step w) last w in
  local_policy alg = global_policy alg ∧
  forallb (λ e, negb (is_sync_run e)) (drop (length (trace w)) (trace (final r)))
  = true.
Proof.
  intros Hnone alg r.
  assert (Hsync : sync_ops alg = None).
  { unfold alg, __init__. simpl. by rewrite Hnone. }
  split; [unfold alg, __init__; simpl; by rewrite Hnone|].
  destruct (train_loop_chain fuel alg num_steps p gamma lambda_ last w)
    as (its & tail & Htrace & _ & Hnosync & _).
  fold r in Htrace. rewrite Htrace, drop_app_length, forallb_app.
  rewrite (Hnosync Hsync), Hsync. rewrite bool_decide_false by (by intros [? ?]).
  by rewrite no_sync_iterations.
Qed.

(** *** The session *)

Lemma _managed_session_result (dir : string) (ckpt : option string)
    (period : option Z) (hs : option (list Hook)) (config : ConfigArg) (w : World) :
  let cfg := match config with
             | USE_DEFAULT => Some _get_default_config
             | Config c => c
             end in
  let installed := match period with
                   | Some p => default [] hs ++ [CheckpointSaverHook dir p]
                   | None => default [] hs
                   end in
  let warned := match period with
                | Some _ => false
                | None => negb (existsb is_checkpoint_saver (default [] hs))
                end in
  let w1 := add_event (EvSessionCreated installed cfg)
              (set_hooks installed
                 (if warned then add_event (EvWarning no_saver_warning) w else w)) in
  _managed_session dir ckpt period hs config w
  = match ckpt with
    | Some c => saver_restore c w1
    | None => Ok tt w1
    end.
Proof.
  unfold _managed_session. destruct period as [p|]; simpl.
  - by destruct ckpt.
  - destruct (negb _); simpl; by destruct ckpt.
Qed.

(** X12.  [_managed_session] logs the warning about the missing
    checkpoint saver exactly when no checkpoint period is given and no hook
    passed by the caller is a checkpoint saver hook. *)
Theorem warning_iff_no_saver (dir : string) (ckpt : option string)
    (period : option Z) (hs : option (list Hook)) (config : ConfigArg) (w : World) :
  let r := _managed_session dir ckpt period hs config w in
  existsb is_warning (drop (length (trace w)) (trace (final r)))
  = match period with
    | Some _ => false
    | None => negb (existsb is_checkpoint_saver (default [] hs))
    end.
Proof.
  intros r. unfold r. rewrite _managed_session_result.
  set (warned := match period with Some _ => false | None => _ end).
  destruct ckpt as [c|]; [unfold saver_restore; destruct (restore c) as [[σ s]|]|];
    destruct warned; simpl; rewrite <- ?app_assoc, drop_app_length; done.
Qed.

(** X13.  When the checkpoint passed to [train] cannot be restored,
    [train] raises right after the session has been created: variables,
    global step and the trajectory queue are as before, and apart from the
    possible warning and the creation of the session nothing has
    happened. *)
Theorem unreadable_checkpoint_stops_training (fuel : nat) (alg : Algorithm)
    (num_steps : Z) (logdir : string) (summary_period : Z)
    (checkpoint_period : option Z) (hs : option (list Hook))
    (gamma lambda_ : option Qc) (c : string) (config : ConfigArg) (w : World) :
  restore c = None →
  ∃ w',
    train fuel alg num_steps logdir summary_period checkpoint_period hs
      gamma lambda_ (Some c) config w = Raises w' ∧
    vars w' = vars w ∧ global_step w' = global_step w ∧
    upcoming w' = upcoming w ∧ queues w' = queues w ∧
    Forall (λ e, is_warning e = true ∨ ∃ hs' cfg, e = EvSessionCreated hs' cfg)
      (drop (length (trace w)) (trace w')).
Proof.
  intros Hrestore. unfold train. unfold mbind at 1, M_bind at 1, bind at 1.
  rewrite _managed_session_result. unfold saver_restore. rewrite Hrestore.
  eexists. split; [reflexivity|]. simpl.
  destruct (match checkpoint_period with Some _ => false | None => _ end); simpl;
    (split; [done|]); (split; [done|]); (split; [done|]); (split; [done|]).
  - rewrite <- !app_assoc, drop_app_length.
    constructor; [by left|]. constructor; [right; eauto|constructor].
  - rewrite drop_app_length. constructor; [right; eauto|constructor].
Qed.


End WithCollab.

End TrainProps.

(** ** Further properties of the evaluation entry point *)

Module EvalProps.

Import Num Tensor Perform PerformProps.
Local Open Scope Qc_scope.

Section WithRollout.
Context `{R : Rollout}.

(** What the loop over the episodes of [main] does from its initial state. *)
Lemma main_loop_spec (fuel : nat) (args : Args) (o : Outside) (σ : A3C.store) :
  let st0 := {| vars := σ; outside := o;
                rewards := replicate (num_episodes args) 0;
                mean_reward := 0; output := [] |} in
  match episodes_rewards fuel args σ (num_episodes args) o with
  | Some (eps, o') =>
      ∃ st, for_episodes fuel args (seq 0 (num_episodes args)) st0 = Returns st ∧
        length (rewards st) = num_episodes args ∧
        mean_reward st = mean_of_first (num_episodes args) (rewards st) ∧
        output st = expected_log (rewards st) 0 (num_episodes args)
  | None => for_episodes fuel args (seq 0 (num_episodes args)) st0 = Timeout
  end.
Proof.
  intros st0.
  pose proof (for_episodes_spec fuel args (num_episodes args) 0 st0) as Hloop.
  simpl in Hloop.
  destruct (episodes_rewards fuel args σ (num_episodes args) o)
    as [[eps o']|] eqn:Heps.
  - destruct Hloop as (st & Hrun & _ & _ & Hrewards & Hmean & Hlog).
    + by rewrite length_replicate.
    + intros j _ Hj. by apply lookup_replicate_2.
    + unfold mean_of_first. simpl. rewrite Qc_of_nat_0. unfold reduce_sum. simpl.
      unfold Qcdiv. by rewrite Qcmult_0_l.
    + exists st. split; [done|]. split; [|done].
      rewrite Hrewards, length_fmap. by eapply episodes_rewards_length.
  - apply Hloop.
    + by rewrite length_replicate.
    + intros j _ Hj. by apply lookup_replicate_2.
    + unfold mean_of_first. simpl. rewrite Qc_of_nat_0. unfold reduce_sum. simpl.
      unfold Qcdiv. by rewrite Qcmult_0_l.
Qed.


Lemma episode_never_done (fuel : nat) (args : Args) (σ : A3C.store)
    (obs : A3C.Obs) (o : Outside) :
  (∀ a o, (env_step a o).1.2 = false) →
  episode_rewards fuel args σ false obs o = None.
Proof.
  intros Hnever. revert obs o. induction fuel as [|fuel IH]; intros obs o; [done|].
  simpl. destruct (policy_act σ obs _) as [action o1].
  pose proof (Hnever action o1) as Hdone.
  destruct (env_step action o1) as [[[obs' rew] done'] o2]. simpl in Hdone.
  subst done'. by rewrite IH.
Qed.

Lemma episodes_never_done (fuel : nat) (args : Args) (σ : A3C.store)
    (n : nat) (o : Outside) :
  (0 < n)%nat →
  (∀ a o, (env_step a o).1.2 = false) →
  episodes_rewards fuel args σ n o = None.
Proof.
  intros Hn Hnever. destruct n as [|n]; [lia|]. simpl.
  destruct (env_reset o) as [obs o1]. by rewrite episode_never_done.
Qed.

(** X16.  With a readable checkpoint, at least one episode to play and an
    environment that never reports [done], [main] does not end: it is still
    running whatever the fuel. *)
Theorem main_runs_forever_without_done (fuel : nat) (args : Args) (o : Outside)
    (σ : A3C.store) :
  saver_restore (checkpoint args) = Some σ →
  (0 < num_episodes args)%nat →
  (∀ a o, (env_step a o).1.2 = false) →
  main fuel args o = Timeout.
Proof.
  intros Hrestore Hn Hnever. unfold main. rewrite Hrestore.
  pose proof (main_loop_spec fuel args o σ) as Hloop. cbv zeta in Hloop.
  rewrite episodes_never_done in Hloop by done. by rewrite Hloop.
Qed.


End WithRollout.

End EvalProps.

(** ** The properties at work on the small collaborators *)

Module Examples.

Import Num Tensor A3C.
Import SyncProps LossProps SessionProps PerformProps.
Local Open Scope Qc_scope.

Lemma sync_copies_global_into_local_witness :
  ∃ ops σ',
    sync_ops Toy.alg = Some ops ∧ run_group ops Toy.store0 σ' ∧
    σ' !! "local/w"%string = Toy.store0 !! "global/w"%string ∧
    σ' !! "local/b"%string = Toy.store0 !! "global/b"%string ∧
    σ' !! "global/w"%string = Toy.store0 !! "global/w"%string.
Proof.
  assert (Hnd : NoDup (var_list Toy.local_p)).
  { apply (bool_decide_unpack (NoDup (var_list Toy.local_p))). vm_compute. exact I. }
  assert (Hdisj : ∀ v, v ∈ var_list Toy.local_p →
                       v ∉ var_list (arg_global_policy Toy.args)).
  { intros v Hl Hg. simpl in Hl, Hg.
    rewrite !elem_of_cons, elem_of_nil in Hl, Hg.
    destruct Hl as [->|[->|[]]]; destruct Hg as [Hg|[Hg|[]]]; discriminate Hg. }
  assert (Hinit : ∀ v, v ∈ var_list (arg_global_policy Toy.args) →
                       is_Some (Toy.store0 !! v)).
  { intros v Hg. simpl in Hg. rewrite !elem_of_cons, elem_of_nil in Hg.
    destruct Hg as [->|[->|[]]]; eexists; reflexivity. }
  destruct (sync_copies_global_into_local Toy.defaults Toy.args Toy.local_p Toy.store0
              eq_refl Hnd Hdisj Hinit) as (ops & Hops & [σ' Hrun] & Hall).
  destruct (Hall σ' Hrun) as [Hcopy Hkeep].
  exists ops, σ'. split; [exact Hops|]. split; [exact Hrun|].
  split; [exact (proj1 (Hcopy 0%nat _ _ eq_refl eq_refl))|].
  split; [exact (proj1 (Hcopy 1%nat _ _ eq_refl eq_refl))|].
  apply Hkeep. simpl. apply elem_of_cons. by left.
Defined.

Lemma loss_of_init_witness :
  ∃ l, losses (C := Toy.collab) Toy.alg Toy.store0 Toy.feed1 = Some l ∧
    entropy_coef Toy.alg = Q2Qc 0.01 ∧ value_loss_coef Toy.alg = Q2Qc 0.25 ∧
    loss l = policy_loss l + Q2Qc 0.25 * v_loss l.
Proof.
  destruct (loss_of_init (C := Toy.collab) ∅ Toy.args Toy.store0 Toy.feed1 2
              eq_refl eq_refl eq_refl eq_refl eq_refl)
    as (Hec & Hvc & l & Hl & _ & _ & Hloss).
  exists l. split; [exact Hl|]. split; [exact Hec|]. split; [exact Hvc|].
  exact Hloss.
Defined.


Example run_ends_normally :
  is_Ok Toy.run = true ∧ global_step (final Toy.run) = 7%Z ∧
  count_updates (trace (final Toy.run)) = 3%nat ∧
  length (pulled (trace (final Toy.run))) = 3%nat.
Proof. vm_compute. done. Qed.

Lemma Ok_final (r : Result (C := Toy.collab) unit) :
  is_Ok r = true → r = Ok tt (final r).
Proof. destruct r as [[] w|w|w|w]; done. Qed.




Lemma managed_session_saver_hook_witness :
  ∃ w' cfg restored,
    _managed_session (C := Toy.collab) "logdir" None None
      (Some [OtherHook "profiler"]) USE_DEFAULT Toy.w0 = Ok tt w' ∧
    hooks w' = [OtherHook "profiler"] ∧
    trace w' = [EvWarning no_saver_warning;
                EvSessionCreated [OtherHook "profiler"] cfg] ++ restored.
Proof.
  destruct (managed_session_saver_hook (C := Toy.collab) "logdir" None None
              (Some [OtherHook "profiler"]) USE_DEFAULT Toy.w0 I)
    as (w' & cfg & restored & Hrun & Hhooks & Htrace).
  exists w', cfg, restored. split; [exact Hrun|]. split; [exact Hhooks|].
  exact (Htrace eq_refl).
Defined.

Example managed_session_installs_saver :
  ∃ w', _managed_session (C := Toy.collab) "logdir" (Some "ckpt"%string) (Some 500%Z)
          None USE_DEFAULT Toy.w0 = Ok tt w' ∧
    hooks w' = [CheckpointSaverHook "logdir" 500] ∧ global_step w' = 100%Z.
Proof. eexists. split; [reflexivity|]. split; reflexivity. Qed.


Lemma default_queue_is_shared_witness :
  tp_queue (trajectory_producer (__init__ Toy.defaults Toy.args))
  = default_queue Toy.defaults ∧
  Toy.heap0 !! default_queue Toy.defaults = Some {| maxsize := 5; items := [] |}.
Proof.
  destruct (default_queue_is_shared ∅ Toy.args Toy.args eq_refl eq_refl)
    as (_ & Hqueue & Hq1 & _).
  split; [exact Hq1|exact Hqueue].
Defined.


Example train_first_update_is_summary :
  let r := train (C := Toy.collab) 5 Toy.alg 7 "logdir" 3 None None
             None None None USE_DEFAULT Toy.w0 in
  is_Ok r = true ∧ global_step (final r) = 7%Z ∧
  applies_update <$> trace (final r)
  = [false; false; false; false; false; false;
     false; false; false; false; true; false; false; false;
     false; false; false; false; true; false;
     false; false; false; false; true; false; false; false;
     false].
Proof. vm_compute. done. Qed.


End Examples.

(** ** The further properties at work on the small collaborators *)

Module FurtherExamples.

Import Num Tensor A3C.
Import SyncProps LossProps SessionProps PerformProps.
Import SyncFrame LossSign TrainProps EvalProps Examples.
Local Open Scope Qc_scope.

Lemma wide_p_NoDup : NoDup (var_list Toy.wide_p).
Proof. apply (bool_decide_unpack (NoDup (var_list Toy.wide_p))). vm_compute. exact I. Qed.

Lemma wide_p_disjoint (v : string) :
  v ∈ var_list Toy.wide_p → v ∉ var_list (arg_global_policy Toy.wide_args).
Proof.
  intros Hl Hg. simpl in Hl, Hg.
  repeat rewrite elem_of_cons in Hl. repeat rewrite elem_of_cons in Hg.
  destruct Hl as [->|[->|[->|Hl]]]; [..|by apply elem_of_nil in Hl];
    (destruct Hg as [Hg|[Hg|Hg]]; [discriminate Hg..|by apply elem_of_nil in Hg]).
Qed.

Lemma local_p_NoDup : NoDup (var_list Toy.local_p).
Proof. apply (bool_decide_unpack (NoDup (var_list Toy.local_p))). vm_compute. exact I. Qed.

Lemma local_p_disjoint (v : string) :
  v ∈ var_list Toy.local_p → v ∉ var_list (arg_global_policy Toy.args).
Proof.
  intros Hl Hg. simpl in Hl, Hg. rewrite !elem_of_cons, elem_of_nil in Hl, Hg.
  destruct Hl as [->|[->|[]]]; destruct Hg as [Hg|[Hg|[]]]; discriminate Hg.
Qed.

Lemma toy_optimizer_frame (lp : Policy) (σ : store) (fd : FeedDict) (v : string) :
  v ∉ var_list (arg_global_policy Toy.args) →
  apply_gradients (Collab := Toy.collab) lp (arg_global_policy Toy.args) σ fd !! v
  = σ !! v.
Proof.
  intros Hv. simpl in *. apply not_elem_of_cons in Hv as [H1 Hv].
  apply not_elem_of_cons in Hv as [H2 _].
  rewrite !lookup_alter_ne by done. done.
Qed.

Lemma sync_leaves_surplus_untouched_witness :
  ∃ ops σ',
    sync_ops (__init__ Toy.defaults Toy.wide_args) = Some ops ∧
    run_group ops Toy.wide_store σ' ∧
    σ' !! "local/extra"%string = Toy.wide_store !! "local/extra"%string ∧
    σ' !! "global/w"%string = Toy.wide_store !! "global/w"%string.
Proof.
  pose (ops := zip_with Assign (var_list Toy.wide_p) (var_list Toy.global_p)).
  pose (σ' := default Toy.wide_store (run_ops ops Toy.wide_store)).
  assert (Hrun : run_group ops Toy.wide_store σ').
  { exists ops. split; [reflexivity|]. vm_compute. reflexivity. }
  destruct (sync_leaves_surplus_untouched Toy.defaults Toy.wide_args Toy.wide_p ops
              Toy.wide_store σ' eq_refl wide_p_NoDup wide_p_disjoint eq_refl Hrun)
    as [Hsurplus Hother].
  exists ops, σ'. split; [reflexivity|]. split; [exact Hrun|]. split.
  - apply (Hsurplus 2%nat); [simpl; lia|reflexivity].
  - apply Hother. simpl. rewrite !elem_of_cons, elem_of_nil.
    intros [H|[H|[H|[]]]]; discriminate H.
Defined.

Lemma sync_twice_is_sync_once_witness :
  ∃ ops σ1 σ2,
    sync_ops Toy.alg = Some ops ∧
    run_group ops Toy.store0 σ1 ∧ run_group ops σ1 σ2 ∧ σ2 = σ1.
Proof.
  pose (ops := zip_with Assign (var_list Toy.local_p) (var_list Toy.global_p)).
  pose (σ1 := default Toy.store0 (run_ops ops Toy.store0)).
  pose (σ2 := default σ1 (run_ops ops σ1)).
  assert (Hrun1 : run_group ops Toy.store0 σ1).
  { exists ops. split; [reflexivity|]. vm_compute. reflexivity. }
  assert (Hrun2 : run_group ops σ1 σ2).
  { exists ops. split; [reflexivity|]. vm_compute. reflexivity. }
  exists ops, σ1, σ2. split; [reflexivity|]. split; [exact Hrun1|].
  split; [exact Hrun2|].
  exact (sync_twice_is_sync_once Toy.defaults Toy.args Toy.local_p ops
           Toy.store0 σ1 σ2 eq_refl local_p_NoDup local_p_disjoint eq_refl
           Hrun1 Hrun2).
Defined.


Lemma feed_state_needs_policy_state_witness :
  ∃ w', _get_feed_dict (C := Toy.collab) Toy.recurrent_alg Toy.gamma0 Toy.lambda0
          Toy.w0 = Raises w' ∧
    trace w' = [EvNext Toy.t1; EvGae Toy.t1].
Proof.
  assert (Hnext : ∃ w1, producer_next (C := Toy.collab)
                          (trajectory_producer Toy.recurrent_alg) Toy.w0
                        = Ok Toy.t1 w1).
  { eexists. reflexivity. }
  destruct Hnext as [w1 Hnext].
  pose proof (feed_state_needs_policy_state (C := Toy.collab) Toy.recurrent_alg
                Toy.gamma0 Toy.lambda0 Toy.w0 w1 Toy.t1 Hnext) as Hfeed.
  assert (Hraises : ∃ w', _get_feed_dict (C := Toy.collab) Toy.recurrent_alg
                            Toy.gamma0 Toy.lambda0 Toy.w0 = Raises w').
  { eexists. reflexivity. }
  destruct Hraises as [w' Hraises]. rewrite Hraises in Hfeed.
  destruct Hfeed as (_ & _ & _ & _ & Htrace).
  exists w'. split; [exact Hraises|exact Htrace].
Defined.

Lemma local_holds_global_before_update_witness :
  ∃ step' last' w',
    train_body (C := Toy.collab) Toy.alg 3 Toy.gamma0 Toy.lambda0 0 (sub64 0 3) Toy.w0
    = Ok (step', last') w' ∧
    vars w' !! "local/w"%string = Toy.store0 !! "global/w"%string ∧
    vars w' !! "local/b"%string = Toy.store0 !! "global/b"%string.
Proof.
  assert (Hrun : ∃ step' last' w',
    train_body (C := Toy.collab) Toy.alg 3 Toy.gamma0 Toy.lambda0 0 (sub64 0 3) Toy.w0
    = Ok (step', last') w').
  { eexists _, _, _. reflexivity. }
  destruct Hrun as (step' & last' & w' & Hrun).
  pose proof (local_holds_global_before_update (C := Toy.collab) Toy.defaults Toy.args
                Toy.local_p 3 Toy.gamma0 Toy.lambda0 0 (sub64 0 3) step' last'
                Toy.w0 w' eq_refl local_p_NoDup local_p_disjoint
                (toy_optimizer_frame Toy.local_p) Hrun) as Hlag.
  exists step', last', w'. split; [exact Hrun|]. split.
  - exact (Hlag 0%nat _ _ eq_refl eq_refl).
  - exact (Hlag 1%nat _ _ eq_refl eq_refl).
Defined.

Lemma step_advances_by_fed_batch_witness :
  ∃ step' last' w' t,
    train_body (C := Toy.collab) Toy.alg 3 Toy.gamma0 Toy.lambda0 0 (sub64 0 3) Toy.w0
    = Ok (step', last') w' ∧
    pulled (trace w') = [t] ∧
    global_step w' = add64 0 (Z.of_nat (num_timesteps t `min` length (observations t))).
Proof.
  assert (Hrun : ∃ step' last' w',
    train_body (C := Toy.collab) Toy.alg 3 Toy.gamma0 Toy.lambda0 0 (sub64 0 3) Toy.w0
    = Ok (step', last') w').
  { eexists _, _, _. reflexivity. }
  destruct Hrun as (step' & last' & w' & Hrun).
  destruct (step_advances_by_fed_batch (C := Toy.collab) Toy.alg 3 Toy.gamma0
              Toy.lambda0 0 (sub64 0 3) step' last' Toy.w0 w' Hrun)
    as (t & Hpulled & Hstep & Hglobal & _).
  exists step', last', w', t. split; [exact Hrun|]. split; [exact Hpulled|].
  rewrite Hglobal. exact Hstep.
Defined.

Lemma updates_bounded_by_budget_witness :
  (Z.of_nat (count_updates (trace (final Toy.run))) ≤ 7)%Z.
Proof.
  apply (updates_bounded_by_budget (C := Toy.collab) 5 Toy.alg 7 3 Toy.gamma0
           Toy.lambda0 (sub64 0 3) Toy.w0).
  - vm_compute. repeat constructor.
  - unfold in_int64, int64_min, int64_max. simpl. lia.
  - vm_compute. discriminate.
Defined.

Lemma budget_overshoot_below_last_trajectory_witness :
  (global_step (final Toy.run) < 7 + 2)%Z.
Proof.
  assert (Hrun : Toy.run = Ok tt (final Toy.run)).
  { apply Ok_final. vm_compute. reflexivity. }
  apply (budget_overshoot_below_last_trajectory (C := Toy.collab) 5 Toy.alg 7 3
           Toy.gamma0 Toy.lambda0 (sub64 0 3) Toy.w0 (final Toy.run)
           [Toy.t1; Toy.t2] Toy.t3 Hrun).
  - vm_compute. reflexivity.
  - vm_compute. repeat constructor.
  - unfold in_int64, int64_min, int64_max. simpl. lia.
  - vm_compute. discriminate.
Defined.

Lemma no_sync_without_local_policy_witness :
  forallb (λ e, negb (is_sync_run e))
    (trace (final (train_loop (C := Toy.collab) 5 (__init__ Toy.defaults Toy.shared_args)
                     7 3 Toy.gamma0 Toy.lambda0 0 (sub64 0 3) Toy.w0)))
  = true.
Proof.
  exact (proj2 (no_sync_without_local_policy (C := Toy.collab) 5 Toy.defaults
                  Toy.shared_args 7 3 Toy.gamma0 Toy.lambda0 (sub64 0 3) Toy.w0
                  eq_refl)).
Defined.

Lemma unreadable_checkpoint_stops_training_witness :
  ∃ w', train (C := Toy.collab) 5 Toy.alg 7 "logdir" 3 None None None None
          (Some "missing"%string) USE_DEFAULT Toy.w0 = Raises w' ∧
    vars w' = Toy.store0 ∧ global_step w' = 0%Z.
Proof.
  destruct (unreadable_checkpoint_stops_training (C := Toy.collab) 5 Toy.alg 7
              "logdir" 3 None None None None "missing" USE_DEFAULT Toy.w0 eq_refl)
    as (w' & Hrun & Hvars & Hstep & _).
  exists w'. split; [exact Hrun|]. split; [exact Hvars|exact Hstep].
Defined.


Lemma main_runs_forever_without_done_witness :
  Perform.main (R := Toy.endless) 50 Toy.eval_args 0%nat = Perform.Timeout.
Proof.
  apply (main_runs_forever_without_done (R := Toy.endless) 50 Toy.eval_args 0%nat
           Toy.store0).
  - reflexivity.
  - simpl. lia.
  - intros a o. reflexivity.
Defined.


End FurtherExamples.
